(** * cf-token-generator: permission resolution and token-request assembly

    A shallow embedding of the command-line entry point of the repository
    (the file with [fetchGitHubIPs], [getPermissionGroupIds], [createToken]
    and [getPermissionGroupId]) and the properties its specification states
    about it.

    Conventions of the embedding.
    - A JavaScript string is a [string]: a sequence of code units below 256.
    - A JavaScript object used as a dictionary ([process.env]-derived
      [permissionGroupIds], [response.data] of the IP registry, the
      [resources] object of a policy) is the [gmap string _] of its own
      properties; reading [object[key]] also sees the members every object
      inherits from [Object.prototype] ([JS.getMember]), and writing
      [object["__proto__"]] stores nothing ([JS.setMember]).
    - [undefined] is [None].
    - The network and the clock are an explicit [World]: the answers the two
      remote services give and the order in which answers arrive.
    - What the program does to the outside is recorded as a list of [event]s;
      [process.exit(1)] ends the run with an [error]. *)

From Stdlib Require Import ZArith Ascii.
From stdpp Require Import gmap strings list fin_maps.

Local Open Scope Z_scope.

(* ===================================================================== *)
(** * JavaScript string primitives used by the program                     *)
(* ===================================================================== *)

Module JS.

(** A string is truthy when it is not empty. *)
Definition truthy (s : string) : bool :=
  match s with
  | EmptyString => false
  | String _ _ => true
  end.

(** [s.startsWith(p)]. *)
Definition startsWith (s p : string) : bool := String.prefix p s.

(** [s.includes(sub)]: [sub] occurs somewhere in [s]. *)
Fixpoint includes (s sub : string) : bool :=
  if String.prefix sub s then true
  else match s with
       | EmptyString => false
       | String _ s' => includes s' sub
       end.

(** [s.includes(c)] for a one-character string [c]. *)
Fixpoint has_char (c : ascii) (s : string) : bool :=
  match s with
  | EmptyString => false
  | String a s' => if Ascii.eqb a c then true else has_char c s'
  end.

(** [s.split(sep)] for a one-character separator: every occurrence of the
    separator cuts; the result always has at least one piece. *)
Fixpoint split (sep : ascii) (s : string) : list string :=
  match s with
  | EmptyString => [EmptyString]
  | String a s' =>
      if Ascii.eqb a sep then EmptyString :: split sep s'
      else match split sep s' with
           | h :: t => String a h :: t
           | [] => [String a EmptyString]
           end
  end.

(** White space and line terminators of ECMAScript among the code units
    below 256: TAB, LF, VT, FF, CR, SPACE, NBSP. *)
Definition is_space (a : ascii) : bool :=
  let n := nat_of_ascii a in
  ((9 <=? n)%nat && (n <=? 13)%nat) || (n =? 32)%nat || (n =? 160)%nat.

Fixpoint trimStart (s : string) : string :=
  match s with
  | EmptyString => EmptyString
  | String a s' => if is_space a then trimStart s' else s
  end.

Fixpoint trimEnd (s : string) : string :=
  match s with
  | EmptyString => EmptyString
  | String a s' =>
      match trimEnd s' with
      | EmptyString => if is_space a then EmptyString else String a EmptyString
      | r => String a r
      end
  end.

(** [s.trim()]. *)
Definition trim (s : string) : string := trimEnd (trimStart s).

Definition is_upper (a : ascii) : bool :=
  let n := nat_of_ascii a in (65 <=? n)%nat && (n <=? 90)%nat.

(** [s.replace(/([A-Z])/g, ' $1')]: a space in front of every capital. *)
Fixpoint spaceCapitals (s : string) : string :=
  match s with
  | EmptyString => EmptyString
  | String a s' =>
      if is_upper a then String " "%char (String a (spaceCapitals s'))
      else String a (spaceCapitals s')
  end.

Fixpoint drop (n : nat) (s : string) : string :=
  match n, s with
  | O, _ => s
  | S _, EmptyString => EmptyString
  | S n', String _ s' => drop n' s'
  end.

(** [s.replace(pat, '')] with a string pattern: the first occurrence of
    [pat] is removed. *)
Fixpoint removeFirst (pat s : string) : string :=
  if String.prefix pat s then drop (String.length pat) s
  else match s with
       | EmptyString => EmptyString
       | String a s' => String a (removeFirst pat s')
       end.

(** [a.pop()] on a freshly built array: its last element. *)
Definition pop (l : list string) : option string := last l.

(** The names of the members every object inherits from
    [Object.prototype]: eleven functions and the accessor [__proto__]. *)
Definition prototypeMembers : list string :=
  [ "constructor"; "__defineGetter__"; "__defineSetter__"; "hasOwnProperty";
    "__lookupGetter__"; "__lookupSetter__"; "isPrototypeOf";
    "propertyIsEnumerable"; "toString"; "valueOf"; "__proto__";
    "toLocaleString" ].

Definition inherited (key : string) : bool :=
  existsb (String.eqb key) prototypeMembers.

(** What [object[key]] gives: the value of an own property, an inherited
    member (a function, or [Object.prototype] itself: truthy, and not a
    string nor an array), or [undefined]. *)
Inductive member (A : Type) : Type :=
| Own (v : A)
| Inherited
| Missing.

Arguments Own {A} v.
Arguments Inherited {A}.
Arguments Missing {A}.

Definition getMember {A : Type} (own : gmap string A) (key : string) : member A :=
  match own !! key with
  | Some v => Own v
  | None => if inherited key then Inherited else Missing
  end.

(** [object[key] = value] for a string [value]: an own property, except
    for the key [__proto__], whose setter drops a value that is not an
    object. *)
Definition setMember {A : Type} (own : gmap string A) (key : string) (value : A)
    : gmap string A :=
  if String.eqb key "__proto__" then own else <[key := value]> own.

End JS.

(* ===================================================================== *)
(** * Data model                                                           *)
(* ===================================================================== *)

(** The program raises plain [Error]s; they are told apart here by the place
    that throws them, under the names the specification gives them. *)
Inductive error : Type :=
| InvalidFormatError (permission : string)
    (* the two [throw]s at the head of the [permissions.map] callback *)
| PermissionNotFoundError (permissionName : string)
    (* [getPermissionGroupId]: no group with that name *)
| RemoteLookupError (messages : list string)
    (* [getPermissionGroupId]: the request failed or [success] was false *)
| TokenCreationError (messages : list string)
    (* [createToken]: the POST failed or [success] was false *)
| TypeError (permissionName : string).
    (* the [permissions.map] callback: [resource.startsWith] (or
       [resource.split]) is not a function, [resource] being a member
       inherited from [Object.prototype] *)

Record PermissionGroup : Type := {
  pg_id : string;
  pg_meta_key : string;
  pg_meta_value : string
}.

Record Policy : Type := {
  effect : string;
  permission_groups : list PermissionGroup;
  resources : gmap string string
}.

(** What [fetchGitHubIPs] returns: a list of CIDR strings, or the truthy
    value that is no such list which [response.data[batch]] gave. *)
Inductive IPs : Type :=
| Ranges (ranges : list string)
| NotAList.

(** The body of the token-creation request.  A field holding [undefined] is
    dropped when the body is serialised: [None] is an absent field. *)
Record Payload : Type := {
  name : string;
  policies : list Policy;
  condition : option IPs;             (* [condition.request_ip.in] *)
  expires_on : option string;
  not_before : string
}.

Record TokenResult : Type := {
  token_id : string;
  token_expires_on : string;
  token_value : string
}.

(** Module-level configuration, read from the environment at start-up. *)
Record Config : Type := {
  CLOUDFLARE_API_TOKEN : string;
  ACCOUNT_ID : string;
  env : list (string * string)        (* [Object.entries(process.env)] *)
}.

(* ===================================================================== *)
(** * The outside world                                                    *)
(* ===================================================================== *)

(** A member of the registry's answer: a list of CIDR strings, or a value
    of another kind, of which only the truthiness matters. *)
Inductive RegistryValue : Type :=
| RangeList (ranges : list string)
| OtherValue (truthy : bool).

(** Answer of the IP-range registry to one GET: the request fails
    (transport error, unusable body); the answer comes, but only after
    more than five seconds; or the answer comes in time.  The answer is a
    JSON object, given by its own properties. *)
Inductive MetaResponse : Type :=
| MetaFail
| MetaSlow (data : gmap string RegistryValue)
| MetaData (data : gmap string RegistryValue).

(** Answer of the provider to one listing of the permission groups. *)
Inductive CatalogResponse : Type :=
| CatalogFail
| CatalogRejected (messages : list string)          (* [success] is false *)
| CatalogOk (result : list (string * string)).      (* entries (name, id) *)

(** Answer of the provider to the token-creation POST. *)
Inductive PostResponse : Type :=
| PostFail (messages : list string)
| PostRejected (messages : list string)             (* [success] is false *)
| PostOk (r : TokenResult).

Record World : Type := {
  now : Z;                              (* [new Date()], ms since the epoch *)
  meta : nat -> MetaResponse;           (* answer to the k-th registry GET *)
  catalog : nat -> CatalogResponse;     (* answer to the k-th catalog GET *)
  arrival : list nat;                   (* order in which catalog answers arrive *)
  post : Payload -> PostResponse       (* answer to the POST of a body *)
}.

Inductive call : Type :=
| GetMeta
| GetPermissionGroups (permissionName : string)
| PostToken (body : Payload).

Inductive event : Type :=
| Issued (c : call)          (* the request is handed to the HTTP client *)
| Settled (c : call)         (* its promise is fulfilled or rejected *)
| Sleep (ms : Z)             (* [setTimeout(resolve, ms)] awaited *)
| SaveFile (path value : string)  (* [fs.writeFileSync] *)
| Exit (code : Z).

(* ===================================================================== *)
(** * The program                                                          *)
(* ===================================================================== *)

(** ** [fetchGitHubIPs(batch, retries = 3)] *)

(** [response.data[batch] || []] *)
Definition pickBatch (data : gmap string RegistryValue) (batch : string) : IPs :=
  match JS.getMember data batch with
  | JS.Own (RangeList ranges) => Ranges ranges
  | JS.Own (OtherValue true) => NotAList
  | JS.Own (OtherValue false) => Ranges []
  | JS.Inherited => NotAList
  | JS.Missing => Ranges []
  end.

(** [attempt] counts the GETs already sent, to pick the world's answer.
    A GET that fails, or is not answered within five seconds, is retried
    after one second while [retries > 0]; after the last failure the
    function returns the empty array.  It never throws. *)
Fixpoint fetchGitHubIPs (w : World) (attempt : nat) (batch : string)
    (retries : nat) : list event * IPs :=
  match meta w attempt with
  | MetaData data => ([Issued GetMeta; Settled GetMeta], pickBatch data batch)
  | _ =>
      match retries with
      | S retries' =>
          let '(t, ips) := fetchGitHubIPs w (S attempt) batch retries' in
          ([Issued GetMeta; Settled GetMeta; Sleep 1000] ++ t, ips)
      | O => ([Issued GetMeta; Settled GetMeta], Ranges [])
      end
  end.

(** ** [getPermissionGroupIds()]

    Every variable [PERMISSION_Xyz] of the environment gives an entry whose
    key is the name with the prefix removed and a space put in front of
    every capital, trimmed.  Later variables overwrite earlier ones. *)
Definition getPermissionGroupIds (cfg : Config) : gmap string string :=
  foldl (fun permissions kv =>
           if JS.startsWith (fst kv) "PERMISSION_" then
             let permissionKey :=
               JS.trim (JS.spaceCapitals (JS.removeFirst "PERMISSION_" (fst kv))) in
             JS.setMember permissions permissionKey (snd kv)
           else permissions)
        ∅ (env cfg).

(** ** [getPermissionGroupId(permissionName)], given the provider's answer.

    [inl e]: the function reports [e] and calls [process.exit(1)] itself;
    [inr id]: it returns the id of the first group whose name is
    [permissionName] ([===] on strings). *)
Definition getPermissionGroupId (r : CatalogResponse) (permissionName : string)
    : error + string :=
  match r with
  | CatalogOk result =>
      match List.find (fun g => String.eqb (fst g) permissionName) result with
      | Some group => inr (snd group)
      | None => inl (PermissionNotFoundError permissionName)
      end
  | CatalogRejected messages => inl (RemoteLookupError messages)
  | CatalogFail => inl (RemoteLookupError [])
  end.

(** ** The callback of [permissions.map] *)

(** The head of the callback: the two format checks and the split. *)
Definition separatorOf (permission : string) : ascii :=
  if JS.includes permission ":" then ":"%char else "/"%char.

Definition splitPermission (permission : string) : error + (string * string) :=
  if negb (JS.truthy permission) then inl (InvalidFormatError permission)
  else
    let separator := separatorOf permission in
    match JS.split separator permission with
    | service :: permissionName :: _ =>
        if negb (JS.truthy service) || negb (JS.truthy permissionName)
        then inl (InvalidFormatError permission)
        else inr (service, permissionName)
    | _ => inl (InvalidFormatError permission)
    end.

(** "Ensure the resource includes the account tag". *)
Definition withAccount (cfg : Config) (resource : string) : string :=
  if JS.truthy (ACCOUNT_ID cfg) && negb (JS.startsWith resource (ACCOUNT_ID cfg))
  then
    if negb (JS.includes resource (ACCOUNT_ID cfg))
    then ACCOUNT_ID cfg +:+ "." +:+ resource
    else resource
  else resource.

(** The tail of the callback, from the value of [resource] on. *)
Definition policyOf (cfg : Config) (service resource0 : string) : Policy :=
  let resource := withAccount cfg resource0 in
  {| effect := "allow";
     permission_groups :=
       [ {| pg_id := default "" (JS.pop (JS.split "." resource));
            pg_meta_key := "service";
            pg_meta_value := service |} ];
     resources := {[ resource := "*" ]} |}.

(** How far a callback gets before it first suspends: it throws, it
    returns, or it has called [getPermissionGroupId] and waits.  An
    inherited member is truthy and no request is made for it, but it has
    neither [startsWith] nor [split]: the callback throws. *)
Inductive started : Type :=
| Thrown (e : error)
| Resolved (p : Policy)
| Awaiting (service permissionName : string).

Definition startPermission (cfg : Config) (permissionGroupIds : gmap string string)
    (permission : string) : started :=
  match splitPermission permission with
  | inl e => Thrown e
  | inr (service, permissionName) =>
      match JS.getMember permissionGroupIds (JS.trim permissionName) with
      | JS.Own resource =>
          if negb (JS.truthy resource)
          then Awaiting service (JS.trim permissionName)
          else Resolved (policyOf cfg service resource)
      | JS.Missing => Awaiting service (JS.trim permissionName)
      | JS.Inherited => Thrown (TypeError (JS.trim permissionName))
      end
  end.

(** The callback resumed with the id [getPermissionGroupId] returned. *)
Definition resumePermission (cfg : Config) (service groupId : string) : Policy :=
  policyOf cfg service (service +:+ "." +:+ groupId).

(** ** [new Date().toISOString()]

    The time value is a number of milliseconds since the epoch; the date is
    that of the proleptic Gregorian calendar in UTC.  Years 0 to 9999 are
    written with four digits, other years with a sign and six digits. *)
Module Date.

Definition digit (d : Z) : ascii := ascii_of_nat (48 + Z.to_nat d).

(** The last [width] decimal digits of [n]. *)
Fixpoint digits (width : nat) (n : Z) : string :=
  match width with
  | O => EmptyString
  | S width' => digits width' (n / 10) +:+ String (digit (n mod 10)) EmptyString
  end.

(** Year, month and day of the day number [days] (days since 1970-01-01). *)
Definition civil (days : Z) : Z * Z * Z :=
  let z := days + 719468 in
  let era := z / 146097 in
  let doe := z - era * 146097 in
  let yoe := (doe - doe / 1460 + doe / 36524 - doe / 146096) / 365 in
  let doy := doe - (365 * yoe + yoe / 4 - yoe / 100) in
  let mp := (5 * doy + 2) / 153 in
  let d := doy - (153 * mp + 2) / 5 + 1 in
  let m := if mp <? 10 then mp + 3 else mp - 9 in
  let y := yoe + era * 400 + (if m <=? 2 then 1 else 0) in
  (y, m, d).

Definition yearString (y : Z) : string :=
  if (0 <=? y) && (y <=? 9999) then digits 4 y
  else if y <? 0 then String "-"%char (digits 6 (- y))
  else String "+"%char (digits 6 y).

(** [YYYY-MM-DDTHH:mm:ss] of a number of whole seconds since the epoch. *)
Definition dateTime (secs : Z) : string :=
  let '(y, m, d) := civil (secs / 86400) in
  let sod := secs mod 86400 in
  yearString y +:+ "-" +:+ digits 2 m +:+ "-" +:+ digits 2 d +:+ "T" +:+
  digits 2 (sod / 3600) +:+ ":" +:+ digits 2 ((sod / 60) mod 60) +:+ ":" +:+
  digits 2 (sod mod 60).

Definition toISOString (t : Z) : string :=
  dateTime (t / 1000) +:+ "." +:+ digits 3 (t mod 1000) +:+ "Z".

(** The time value with its milliseconds removed. *)
Definition wholeSeconds (t : Z) : Z := 1000 * (t / 1000).

End Date.

(** [new Date().toISOString().split('.')[0] + 'Z'] *)
Definition notBefore (t : Z) : string :=
  default "" (JS.split "." (Date.toISOString t) !! 0%nat) +:+ "Z".

(** ** [createToken] *)

Record Run : Type := {
  trace : list event;
  outcome : error + TokenResult      (* [inl e]: [process.exit(1)] after [e] *)
}.

(** The callbacks that suspended, in the order they were started, and the
    catalog requests they sent. *)
Definition pendingOf (l : list started) : list (string * string) :=
  omap (fun s => match s with
                 | Awaiting service permissionName => Some (service, permissionName)
                 | _ => None
                 end) l.

Definition issuedBy (l : list started) : list event :=
  (fun sp => Issued (GetPermissionGroups (snd sp))) <$> pendingOf l.

(** The first callback that threw: [Promise.all] rejects with its error. *)
Fixpoint firstThrown (l : list started) : option error :=
  match l with
  | [] => None
  | Thrown e :: _ => Some e
  | _ :: l' => firstThrown l'
  end.

(** The list without the numbers already [seen] and without repetition,
    each number standing where it first occurs. *)
Fixpoint firstOccurrences (seen l : list nat) : list nat :=
  match l with
  | [] => []
  | i :: l' =>
      if existsb (Nat.eqb i) seen then firstOccurrences seen l'
      else i :: firstOccurrences (i :: seen) l'
  end.

(** The order in which the [k] catalog answers are handled: the world's
    [arrival] order, as far as it names requests that were sent, each once;
    then the answers it left out, in the order of the requests. *)
Definition deliveryOrder (k : nat) (arr : list nat) : list nat :=
  firstOccurrences [] (filter (fun i => (i < k)%nat) arr ++ seq 0 k).

(** Answers are handled one by one; the first that makes
    [getPermissionGroupId] fail ends the process. *)
Fixpoint settle (w : World) (pending : list (string * string)) (order : list nat)
    : list event * option error :=
  match order with
  | [] => ([], None)
  | i :: order' =>
      match pending !! i with
      | None => settle w pending order'
      | Some (_, permissionName) =>
          match getPermissionGroupId (catalog w i) permissionName with
          | inl e => ([Settled (GetPermissionGroups permissionName)], Some e)
          | inr _ =>
              let '(t, r) := settle w pending order' in
              (Settled (GetPermissionGroups permissionName) :: t, r)
          end
      end
  end.

(** The values of the callbacks' promises, in input order, once every
    answer has been handled; [k] numbers the catalog requests. *)
Fixpoint collect (cfg : Config) (w : World) (k : nat) (l : list started)
    : list Policy :=
  match l with
  | [] => []
  | Resolved p :: l' => p :: collect cfg w k l'
  | Awaiting service permissionName :: l' =>
      match getPermissionGroupId (catalog w k) permissionName with
      | inr groupId => resumePermission cfg service groupId :: collect cfg w (S k) l'
      | inl _ => collect cfg w (S k) l'
      end
  | Thrown _ :: l' => collect cfg w k l'
  end.

(** The object literal [payload]. *)
Definition buildPayload (w : World) (name : string) (policies : list Policy)
    (expiration : option string) (whitelistGitHubIPs : bool)
    (githubIPs : IPs) : Payload :=
  {| name := name;
     policies := policies;
     condition := if whitelistGitHubIPs then Some githubIPs else None;
     expires_on := match expiration with
                   | Some e => if JS.truthy e then Some e else None
                   | None => None
                   end;
     not_before := notBefore (now w) |}.

(** The POST and what follows it. *)
Definition submit (w : World) (payload : Payload) : Run :=
  let sent := [Issued (PostToken payload); Settled (PostToken payload)] in
  match post w payload with
  | PostOk r =>
      {| trace := sent ++ [SaveFile "cf-token.txt" (token_value r)];
         outcome := inr r |}
  | PostRejected messages =>
      {| trace := sent ++ [Exit 1]; outcome := inl (TokenCreationError messages) |}
  | PostFail messages =>
      {| trace := sent ++ [Exit 1]; outcome := inl (TokenCreationError messages) |}
  end.

(** [whitelistGitHubIPs ? await fetchGitHubIPs(githubIPBatch) : []] *)
Definition fetchPhase (w : World) (whitelistGitHubIPs : bool)
    (githubIPBatch : string) : list event * IPs :=
  if whitelistGitHubIPs then fetchGitHubIPs w 0 githubIPBatch 3
  else ([], Ranges []).

(** [permissions.map(async (permission) => ...)]: every callback is run, in
    input order, up to its first [await]; none waits for another. *)
Definition callbacksOf (cfg : Config) (permissions : list string) : list started :=
  startPermission cfg (getPermissionGroupIds cfg) <$> permissions.

(** [await Promise.all(...)] when no callback threw: the answers to the
    requests in flight are handled as they arrive. *)
Definition settlePhase (w : World) (callbacks : list started)
    : list event * option error :=
  settle w (pendingOf callbacks)
         (deliveryOrder (length (pendingOf callbacks)) (arrival w)).

Definition createToken (cfg : Config) (w : World) (name : string)
    (permissions : list string) (expiration : option string)
    (whitelistGitHubIPs : bool) (githubIPBatch : string) : Run :=
  let '(fetched, githubIPs) := fetchPhase w whitelistGitHubIPs githubIPBatch in
  let callbacks := callbacksOf cfg permissions in
  let issued := issuedBy callbacks in
  match firstThrown callbacks with
  | Some e => {| trace := fetched ++ issued ++ [Exit 1]; outcome := inl e |}
  | None =>
      match settlePhase w callbacks with
      | (settled, Some e) =>
          {| trace := fetched ++ issued ++ settled ++ [Exit 1]; outcome := inl e |}
      | (settled, None) =>
          let payload :=
            buildPayload w name (collect cfg w 0 callbacks) expiration
                         whitelistGitHubIPs githubIPs in
          let r := submit w payload in
          {| trace := fetched ++ issued ++ settled ++ trace r; outcome := outcome r |}
      end
  end.

(** ** Reading a run *)

(** The body of the token-creation request the run sent, if it sent one. *)
Fixpoint postedPayload (t : list event) : option Payload :=
  match t with
  | [] => None
  | Issued (PostToken p) :: _ => Some p
  | _ :: t' => postedPayload t'
  end.

Definition is_issue (e : event) : bool :=
  match e with Issued _ => true | _ => false end.

Definition is_meta_issue (e : event) : bool :=
  match e with Issued GetMeta => true | _ => false end.

Definition is_catalog_issue (e : event) : bool :=
  match e with Issued (GetPermissionGroups _) => true | _ => false end.

Definition is_post_issue (e : event) : bool :=
  match e with Issued (PostToken _) => true | _ => false end.

(** Number of requests of the given kind handed to the HTTP client. *)
Definition count (f : event -> bool) (t : list event) : nat :=
  length (List.filter f t).

Definition is_sleep (e : event) : bool :=
  match e with Sleep _ => true | _ => false end.

(** Number of requests in flight after [t], when [cur] were before it. *)
Fixpoint inFlightAfter (cur : nat) (t : list event) : nat :=
  match t with
  | [] => cur
  | Issued _ :: t' => inFlightAfter (S cur) t'
  | Settled _ :: t' => inFlightAfter (Nat.pred cur) t'
  | _ :: t' => inFlightAfter cur t'
  end.

(** The largest number of requests in flight at one time: [cur] requests
    are in flight before [t] starts. *)
Fixpoint maxInFlight (cur : nat) (t : list event) : nat :=
  match t with
  | [] => cur
  | Issued _ :: t' => Nat.max cur (maxInFlight (S cur) t')
  | Settled _ :: t' => Nat.max cur (maxInFlight (Nat.pred cur) t')
  | _ :: t' => maxInFlight cur t'
  end.

(** Events of a fetch: GETs to the registry, each answered before the
    next is sent, and one-second pauses between them; the index counts
    the GETs. *)
Inductive fetchTrace : nat -> list event -> Prop :=
| fetch_last : fetchTrace 1 [Issued GetMeta; Settled GetMeta]
| fetch_retry n t :
    fetchTrace n t ->
    fetchTrace (S n) ([Issued GetMeta; Settled GetMeta; Sleep 1000] ++ t).

(* ===================================================================== *)
(** * Vocabulary of the specification                                      *)
(* ===================================================================== *)

(** The three ways a permission descriptor is malformed: it has no
    separator, nothing stands before its separator, or nothing stands
    between its separator and the next one (or the end). *)
Definition missingSeparator (d : string) : Prop :=
  JS.has_char ":" d = false /\ JS.has_char "/" d = false.

Definition emptyService (d : string) : Prop :=
  exists rest, d = String (separatorOf d) rest.

Definition emptyName (d : string) : Prop :=
  exists service,
    JS.has_char (separatorOf d) service = false /\
    (d = service +:+ String (separatorOf d) EmptyString \/
     exists rest,
       d = service +:+ String (separatorOf d) (String (separatorOf d) rest)).

Definition malformed (d : string) : Prop :=
  missingSeparator d \/ emptyService d \/ emptyName d.

(** The pieces a successful split returns, read off the descriptor: both
    are non-empty and free of the separator, the descriptor starts with the
    first, the separator and the second, and either ends there or goes on
    with another separator. *)
Definition firstTwoPieces (permission service permissionName : string) : Prop :=
  service <> EmptyString /\ permissionName <> EmptyString /\
  JS.has_char (separatorOf permission) service = false /\
  JS.has_char (separatorOf permission) permissionName = false /\
  (permission = service +:+ String (separatorOf permission) permissionName \/
   exists rest,
     permission =
     service +:+ String (separatorOf permission)
                        (permissionName +:+ String (separatorOf permission) rest)).

(** Number of occurrences of a character. *)
Fixpoint occurrences (c : ascii) (s : string) : nat :=
  match s with
  | EmptyString => O
  | String a s' => if Ascii.eqb a c then S (occurrences c s') else occurrences c s'
  end.

(** A well-formed descriptor, in the words of the resolver's contract: it
    holds exactly one recognized separator ([':'], or ['/'] when there is
    no [':']), with something on both sides. *)
Definition wellFormed (d : string) : Prop :=
  occurrences (separatorOf d) d = 1%nat /\
  exists service permissionName,
    JS.truthy service = true /\ JS.truthy permissionName = true /\
    d = service +:+ String (separatorOf d) permissionName.

(** The policy [p] was made from the descriptor [permission]: it is the
    policy of the descriptor's service and of some resource. *)
Definition policyFor (cfg : Config) (permission : string) (p : Policy) : Prop :=
  exists service permissionName resource,
    splitPermission permission = inr (service, permissionName) /\
    p = policyOf cfg service resource.

(** The descriptor splits, and its trimmed permission name, without an
    entry of its own in the local mapping, is the name of a member every
    object inherits: the callback finds that member and throws. *)
Definition hitsPrototype (cfg : Config) (d : string) : Prop :=
  exists service permissionName,
    splitPermission d = inr (service, permissionName) /\
    JS.getMember (getPermissionGroupIds cfg) (JS.trim permissionName)
    = JS.Inherited.

(** The policy [p] is the one the descriptor [permission] resolves to, when
    [lookup] numbers the catalog request it may send: the policy of its
    service and of its non-empty local entry, or else of the service, a dot
    and the id the catalog gives for its trimmed name. *)
Definition resolvesTo (cfg : Config) (w : World) (lookup : nat)
    (permission : string) (p : Policy) : Prop :=
  exists service permissionName,
    splitPermission permission = inr (service, permissionName) /\
    ((exists resource,
         getPermissionGroupIds cfg !! JS.trim permissionName = Some resource /\
         JS.truthy resource = true /\
         p = policyOf cfg service resource) \/
     (exists groupId,
         (getPermissionGroupIds cfg !! JS.trim permissionName = Some EmptyString \/
          JS.getMember (getPermissionGroupIds cfg) (JS.trim permissionName)
          = JS.Missing) /\
         getPermissionGroupId (catalog w lookup) (JS.trim permissionName)
         = inr groupId /\
         p = policyOf cfg service (service +:+ "." +:+ groupId))).

(** The number of catalog requests sent by the descriptors that stand
    before the position [j] of the list. *)
Definition lookupsBefore (cfg : Config) (permissions : list string) (j : nat)
    : nat :=
  length (pendingOf (callbacksOf cfg (take j permissions))).

(** The GET got no answer within the time limit: it failed, or its answer
    came too late. *)
Definition unanswered (r : MetaResponse) : bool :=
  match r with
  | MetaData _ => false
  | _ => true
  end.

(** A service or a permission name that holds neither separator. *)
Definition separatorFree (s : string) : Prop :=
  JS.has_char ":" s = false /\ JS.has_char "/" s = false.

(* ===================================================================== *)
(** * Sample configurations and worlds                                     *)
(* ===================================================================== *)

Module Sample.

(** An account with one permission id in its environment. *)
Definition account : Config :=
  {| CLOUDFLARE_API_TOKEN := "token";
     ACCOUNT_ID := "ACCT1";
     env := [("HOME", "/root"); ("PERMISSION_AccountSettingsRead", "abc123")] |}.

(** The same account with an empty value for [Zone Read]. *)
Definition emptyEntry : Config :=
  {| CLOUDFLARE_API_TOKEN := "token";
     ACCOUNT_ID := "ACCT1";
     env := [("PERMISSION_ZoneRead", "")] |}.

(** An account without any permission id in its environment. *)
Definition bare : Config :=
  {| CLOUDFLARE_API_TOKEN := "token"; ACCOUNT_ID := "ACCT1"; env := [] |}.

Definition created : TokenResult :=
  {| token_id := "t1"; token_expires_on := "2025-12-31T23:59:59Z";
     token_value := "secret" |}.

(** The registry answers with one range for [actions]; the catalog knows
    [Zone Read] and [Zone Write]; the provider creates the token.  The
    clock reads 2025-06-01T12:30:45.678Z. *)
Definition world : World :=
  {| now := 1748781045678;
     meta := fun _ => MetaData {[ "actions" := RangeList ["1.2.3.0/24"] ]};
     catalog := fun _ => CatalogOk [("Zone Read", "zr1"); ("Zone Write", "zw1")];
     arrival := [];
     post := fun _ => PostOk created |}.

(** The same world with a registry that never answers. *)
Definition registryDown : World :=
  {| now := now world; meta := fun _ => MetaFail; catalog := catalog world;
     arrival := arrival world; post := post world |}.

(** The same world with a registry that does not list [actions]. *)
Definition noBatch : World :=
  {| now := now world;
     meta := fun _ => MetaData {[ "pages" := RangeList ["5.6.7.0/24"] ]};
     catalog := catalog world; arrival := arrival world; post := post world |}.

(** The same world with a catalog that only knows [Zone Read]. *)
Definition smallCatalog : World :=
  {| now := now world; meta := meta world;
     catalog := fun _ => CatalogOk [("Zone Read", "zr1")];
     arrival := arrival world; post := post world |}.

(** The policy the catalog's [Zone Read] gives for the service [zone], and
    the request body that holds it alone. *)
Definition zonePolicy : Policy :=
  {| effect := "allow";
     permission_groups :=
       [ {| pg_id := "zr1"; pg_meta_key := "service"; pg_meta_value := "zone" |} ];
     resources := {[ "ACCT1.zone.zr1" := "*" ]} |}.

Definition body (condition : option IPs) (expires_on : option string)
    : Payload :=
  {| name := "Generated Token";
     policies := [zonePolicy];
     condition := condition;
     expires_on := expires_on;
     not_before := "2025-06-01T12:30:45Z" |}.

End Sample.

(* ===================================================================== *)
(** * The rest of the program                                              *)
(* ===================================================================== *)

(** ** [toSpacedName(permissionName)] *)
Definition toSpacedName (permissionName : string) : string :=
  JS.trim (JS.spaceCapitals permissionName).

(** The key under which [getPermissionGroupIds] files the variable [key]
    of the environment. *)
Definition permissionKeyOf (key : string) : string :=
  JS.trim (JS.spaceCapitals (JS.removeFirst "PERMISSION_" key)).

(** ** The command line *)

(** A value as the argument parser hands it over: a string, or a number
    when the text typed looks like one ([text] is how the number prints). *)
Inductive ArgValue : Type :=
| ArgString (s : string)
| ArgNumber (text : string).

(** The options of the default command, as the argument parser hands them
    to the handler: [permissions] is an array option, the two others are
    string options. *)
Record Argv : Type := {
  argv_permissions : list ArgValue;
  argv_valid_until : option string;
  argv_batch : string;
  argv_no_github_ips : bool
}.

(** [(argv.permissions as string[]).flatMap(p => p.split(','))]: a number
    has no [split], and the call throws ([None]). *)
Fixpoint cliPermissions (args : list ArgValue) : option (list string) :=
  match args with
  | [] => Some []
  | ArgString p :: args' =>
      match cliPermissions args' with
      | Some pieces => Some (JS.split "," p ++ pieces)
      | None => None
      end
  | ArgNumber _ :: _ => None
  end.

(** What one invocation of the program does. *)
Inductive Invocation : Type :=
| MissingConfiguration                       (* the check at start-up failed *)
| HandlerThrew              (* the handler threw before [createToken] was called *)
| Generated (r : Run)
| LookedUp (t : list event) (r : error + string).

(** The handler of the default command. *)
Definition generateCommand (cfg : Config) (w : World) (argv : Argv) : Invocation :=
  match cliPermissions (argv_permissions argv) with
  | Some permissions =>
      Generated (createToken cfg w "Generated Token" permissions
                             (argv_valid_until argv)
                             (negb (argv_no_github_ips argv))
                             (argv_batch argv))
  | None => HandlerThrew
  end.

(** [getPermissionGroupId(argv.name as string)]: [g.name === permissionName]
    never holds when the name is a number. *)
Definition getPermissionGroupIdOf (r : CatalogResponse) (name : ArgValue)
    : error + string :=
  match name with
  | ArgString s => getPermissionGroupId r s
  | ArgNumber text =>
      getPermissionGroupId (match r with
                            | CatalogOk _ => CatalogOk []
                            | _ => r
                            end) text
  end.

Definition argText (a : ArgValue) : string :=
  match a with
  | ArgString s => s
  | ArgNumber text => text
  end.

(** The handler of [get-permission-id <name>]: one listing of the catalog,
    for the name as the parser hands it; the id is printed, or the process
    ends. *)
Definition getPermissionIdCommand (w : World) (name : ArgValue)
    : list event * (error + string) :=
  let asked := [Issued (GetPermissionGroups (argText name));
                Settled (GetPermissionGroups (argText name))] in
  match getPermissionGroupIdOf (catalog w 0) name with
  | inl e => (asked ++ [Exit 1], inl e)
  | inr permissionId => (asked, inr permissionId)
  end.

Inductive Command : Type :=
| Generate (argv : Argv)
| GetPermissionId (name : ArgValue).

(** [process.env.KEY] *)
Definition envGet (key : string) (environment : list (string * string))
    : option string :=
  snd <$> List.find (fun kv => String.eqb (fst kv) key) environment.

(** The module from its first line: the two variables are read, the
    process ends when one is missing or empty, and the command runs. *)
Definition main (environment : list (string * string)) (w : World)
    (cmd : Command) : Invocation :=
  let token := envGet "CLOUDFLARE_API_TOKEN" environment in
  let account := envGet "ACCOUNT_ID" environment in
  if negb (JS.truthy (default "" token)) || negb (JS.truthy (default "" account))
  then MissingConfiguration
  else
    let cfg := {| CLOUDFLARE_API_TOKEN := default "" token;
                  ACCOUNT_ID := default "" account;
                  env := environment |} in
    match cmd with
    | Generate argv => generateCommand cfg w argv
    | GetPermissionId name =>
        let '(t, r) := getPermissionIdCommand w name in LookedUp t r
    end.

(** The requests and the other events of an invocation, as far as the
    program's own code makes them: what the argument parser does with the
    exception of a handler that threw is not recorded. *)
Definition invocationTrace (i : Invocation) : list event :=
  match i with
  | MissingConfiguration => [Exit 1]
  | HandlerThrew => []
  | Generated r => trace r
  | LookedUp t _ => t
  end.

(** ** The first version of the program ([src/index.ts]) *)
Module IndexTs.

Record Policy : Type := {
  effect : string;
  permissions : list string;
  resources : list string
}.

Record Payload : Type := {
  name : string;
  policies : list Policy;
  condition : option IPs;
  expires_on : option string
}.

(** What the program prints at the end. *)
Inductive Report : Type :=
| TokenCreated          (* "Token Created Successfully" *)
| ErrorCreatingToken.   (* "Error Creating Token"; the process goes on *)

Record Run : Type := {
  fetched : list event;        (* the requests to the IP-range registry *)
  posted : Payload;            (* the body of the one POST *)
  report : Report
}.

(** [fetchGitHubIPs(batch)]: one GET, without a time limit and without a
    second try. *)
Definition fetchGitHubIPs (w : World) (batch : string) : list event * IPs :=
  match meta w 0 with
  | MetaData data => ([Issued GetMeta; Settled GetMeta], pickBatch data batch)
  | MetaSlow data => ([Issued GetMeta; Settled GetMeta], pickBatch data batch)
  | MetaFail => ([Issued GetMeta; Settled GetMeta], Ranges [])
  end.

(** [createToken]: the body is built from the raw permission strings and
    sent; the answer is printed whatever it says.  [provider] is the answer
    of the provider to the POST of a body. *)
Definition createToken (w : World) (provider : Payload -> PostResponse)
    (name : string) (permissions : list string)
    (expiration : option string) (whitelistGitHubIPs : bool)
    (githubIPBatch : string) : Run :=
  let '(fetched, githubIPs) :=
    if whitelistGitHubIPs then fetchGitHubIPs w githubIPBatch
    else ([], Ranges []) in
  let payload :=
    {| name := name;
       policies :=
         [ {| effect := "allow";
              permissions := permissions;
              resources :=
                (fun perm => default "" (JS.split ":" perm !! 0%nat))
                  <$> permissions |} ];
       condition := if whitelistGitHubIPs then Some githubIPs else None;
       expires_on := match expiration with
                     | Some e => if JS.truthy e then Some e else None
                     | None => None
                     end |} in
  {| fetched := fetched;
     posted := payload;
     report := match provider payload with
               | PostFail _ => ErrorCreatingToken
               | _ => TokenCreated
               end |}.

End IndexTs.

(* ===================================================================== *)
(** * Vocabulary of the further properties                                 *)
(* ===================================================================== *)

(** One turn of the loop of [getPermissionGroupIds]. *)
Definition addPermission (permissions : gmap string string)
    (kv : string * string) : gmap string string :=
  if JS.startsWith (fst kv) "PERMISSION_"
  then JS.setMember permissions (permissionKeyOf (fst kv)) (snd kv)
  else permissions.

(** A word of a permission name: a capital, then characters that are
    neither capitals nor white space. *)
Definition plainChar (a : ascii) : bool := negb (JS.is_upper a) && negb (JS.is_space a).

Fixpoint allPlain (s : string) : bool :=
  match s with
  | EmptyString => true
  | String a s' => plainChar a && allPlain s'
  end.

Definition capitalisedWord (word : string) : bool :=
  match word with
  | EmptyString => false
  | String a rest => JS.is_upper a && allPlain rest
  end.

(** The words one after the other, and the words with a space between. *)
Fixpoint concatWords (words : list string) : string :=
  match words with
  | [] => EmptyString
  | word :: words' => word +:+ concatWords words'
  end.

Fixpoint spacedWords (words : list string) : string :=
  match words with
  | [] => EmptyString
  | word :: words' => String " " (word +:+ spacedWords words')
  end.

Definition joinWords (words : list string) : string :=
  match words with
  | [] => EmptyString
  | word :: words' => word +:+ spacedWords words'
  end.

(** A capital that stands right after a character other than a space, as
    the [N] of [DNS]. *)
Fixpoint gluedCapital (s : string) : bool :=
  match s with
  | EmptyString => false
  | String a s' =>
      match s' with
      | EmptyString => false
      | String b _ =>
          (negb (Ascii.eqb a " ") && JS.is_upper b) || gluedCapital s'
      end
  end.

Definition startsWithCapital (s : string) : bool :=
  match s with
  | EmptyString => false
  | String a _ => JS.is_upper a
  end.

(** The last dot-separated piece. *)
Definition lastSegment (s : string) : string :=
  default "" (JS.pop (JS.split "." s)).

Definition is_save (e : event) : bool :=
  match e with SaveFile _ _ => true | _ => false end.

Definition is_exit (e : event) : bool :=
  match e with Exit _ => true | _ => false end.

(** The same world with another order of arrival of the catalog answers. *)
Definition withArrival (w : World) (arr : list nat) : World :=
  {| now := now w; meta := meta w; catalog := catalog w;
     arrival := arr; post := post w |}.

(* ===================================================================== *)
(** * Facts about the string primitives                                    *)
(* ===================================================================== *)

Section StringFacts.

Implicit Types (s a b : string) (c : ascii).

Lemma truthy_true s : JS.truthy s = true <-> s <> EmptyString.
Proof. destruct s; simpl; split; congruence. Qed.

Lemma truthy_false s : JS.truthy s = false <-> s = EmptyString.
Proof. destruct s; simpl; split; congruence. Qed.

Lemma has_char_app c a b :
  JS.has_char c (a +:+ b) = JS.has_char c a || JS.has_char c b.
Proof.
  induction a as [|x a IH]; simpl; [reflexivity|].
  destruct (Ascii.eqb x c); [reflexivity | exact IH].
Qed.

Lemma includes_char s c :
  JS.includes s (String c EmptyString) = JS.has_char c s.
Proof.
  induction s as [|x s IH]; simpl; [reflexivity|].
  destruct (ascii_dec c x) as [->|Hne].
  - rewrite Ascii.eqb_refl. now destruct s.
  - destruct (Ascii.eqb_spec x c) as [->|_]; [congruence | exact IH].
Qed.

Lemma split_not_nil c s : JS.split c s <> [].
Proof.
  destruct s as [|x s]; simpl; [discriminate|].
  destruct (Ascii.eqb x c); [discriminate|].
  destruct (JS.split c s); discriminate.
Qed.

(** A string without the separator is one piece. *)
Lemma split_no_sep c s : JS.has_char c s = false -> JS.split c s = [s].
Proof.
  induction s as [|x s IH]; simpl; [reflexivity|].
  destruct (Ascii.eqb x c); [discriminate|].
  intros H. now rewrite (IH H).
Qed.

(** The first piece ends at the first occurrence of the separator. *)
Lemma split_app c a b :
  JS.has_char c a = false ->
  JS.split c (a +:+ String c b) = a :: JS.split c b.
Proof.
  induction a as [|x a IH]; simpl.
  - intros _. now rewrite Ascii.eqb_refl.
  - destruct (Ascii.eqb x c); [discriminate|].
    intros H. now rewrite (IH H).
Qed.

(** Conversely, the first piece is free of the separator, and either it
    is the whole string or the separator and the other pieces follow. *)
Lemma split_inv c s h t :
  JS.split c s = h :: t ->
  JS.has_char c h = false /\
  ((t = [] /\ s = h) \/
   exists s', s = h +:+ String c s' /\ t = JS.split c s').
Proof.
  revert h t. induction s as [|x s IH]; simpl; intros h t H.
  - injection H as <- <-. split; [reflexivity | now left].
  - destruct (Ascii.eqb_spec x c) as [->|Hne].
    + injection H as <- <-. split; [reflexivity|].
      right. now exists s.
    + destruct (JS.split c s) as [|h' t'] eqn:Hs.
      { now destruct (split_not_nil c s). }
      injection H as <- <-.
      destruct (IH h' t' eq_refl) as [Hh [[-> ->]|(s' & -> & ->)]].
      * split; [|now left].
        simpl. now destruct (Ascii.eqb_spec x c).
      * split; [|right; now exists s'].
        simpl. now destruct (Ascii.eqb_spec x c).
Qed.

(** The last piece is free of the separator and ends the string. *)
Lemma split_last c s x :
  last (JS.split c s) = Some x ->
  JS.has_char c x = false /\
  (s = x \/ exists pre, s = pre +:+ String c x).
Proof.
  revert x. induction s as [|y s IH]; simpl; intros x H.
  - injection H as <-. split; [reflexivity | now left].
  - destruct (Ascii.eqb_spec y c) as [->|Hne].
    + rewrite last_cons in H.
      destruct (last (JS.split c s)) as [z|] eqn:Hl.
      * injection H as <-.
        destruct (IH z eq_refl) as [Hz [->|(pre & ->)]].
        -- split; [exact Hz|]. right. now exists EmptyString.
        -- split; [exact Hz|]. right. now exists (String c pre).
      * apply last_None in Hl. now destruct (split_not_nil c s).
    + destruct (JS.split c s) as [|h t] eqn:Hs.
      { now destruct (split_not_nil c s). }
      destruct t as [|h2 t].
      * injection H as <-.
        destruct (split_inv c s h [] Hs) as [Hh [[_ ->]|(s' & _ & Ht)]].
        -- split; [|now left].
           simpl. now destruct (Ascii.eqb_spec y c).
        -- symmetry in Ht. now destruct (split_not_nil c s').
      * assert (Hl : last (h :: h2 :: t) = Some x) by exact H.
        destruct (IH x Hl) as [Hx [->|(pre & ->)]].
        -- rewrite (split_no_sep c x Hx) in Hs. discriminate.
        -- split; [exact Hx|]. right. now exists (String y pre).
Qed.

(** The first two pieces, read off the string. *)
Lemma split_first_two c s a b :
  (exists t, JS.split c s = a :: b :: t) <->
  JS.has_char c a = false /\ JS.has_char c b = false /\
  (s = a +:+ String c b \/ exists rest, s = a +:+ String c (b +:+ String c rest)).
Proof.
  split.
  - intros [t Hs].
    destruct (split_inv _ _ _ _ Hs) as [Ha [[? _]|(s' & -> & Ht)]]; [discriminate|].
    symmetry in Ht.
    destruct (split_inv _ _ _ _ Ht) as [Hb [[_ ->]|(s2 & -> & _)]].
    + repeat split; auto.
    + repeat split; auto. right. now exists s2.
  - intros (Ha & Hb & [->|[rest ->]]); rewrite split_app by exact Ha.
    + rewrite split_no_sep by exact Hb. now exists [].
    + rewrite split_app by exact Hb. eauto.
Qed.

Lemma occurrences_app c a b :
  occurrences c (a +:+ b) = (occurrences c a + occurrences c b)%nat.
Proof.
  induction a as [|x a IH]; simpl; [reflexivity|].
  destruct (Ascii.eqb x c); simpl; now rewrite IH.
Qed.

Lemma occurrences_none c s : occurrences c s = 0%nat <-> JS.has_char c s = false.
Proof.
  induction s as [|x s IH]; simpl; [easy|].
  destruct (Ascii.eqb x c); [split; discriminate | exact IH].
Qed.

Lemma startsWith_includes s a : JS.startsWith s a = true -> JS.includes s a = true.
Proof.
  unfold JS.startsWith. intros H. destruct s; cbn [JS.includes]; now rewrite H.
Qed.

Lemma includes_empty s : JS.includes s EmptyString = true.
Proof. now destruct s. Qed.

End StringFacts.

(* ===================================================================== *)
(** * Splitting a permission descriptor                                    *)
(* ===================================================================== *)

Section Splitting.

Implicit Types (permission service permissionName : string).

Lemma separatorOf_spec permission :
  separatorOf permission =
  if JS.has_char ":" permission then ":"%char else "/"%char.
Proof. unfold separatorOf. now rewrite includes_char. Qed.

Lemma separatorOf_cases permission :
  (separatorOf permission = ":"%char /\ JS.has_char ":" permission = true) \/
  (separatorOf permission = "/"%char /\ JS.has_char ":" permission = false).
Proof.
  rewrite separatorOf_spec.
  destruct (JS.has_char ":" permission); [now left | now right].
Qed.

Lemma splitPermission_inr permission service permissionName :
  splitPermission permission = inr (service, permissionName) <->
  firstTwoPieces permission service permissionName.
Proof.
  unfold splitPermission, firstTwoPieces.
  rewrite <- !truthy_true, <- split_first_two.
  generalize (separatorOf permission). intros sep. split.
  - destruct (JS.truthy permission); simpl; [|discriminate].
    destruct (JS.split sep permission) as [|h [|h2 t]]; try discriminate.
    destruct (JS.truthy h) eqn:Th; simpl; [|discriminate].
    destruct (JS.truthy h2) eqn:Th2; simpl; [|discriminate].
    intros H. injection H as <- <-. eauto.
  - intros (Hs & Hn & t & Ht).
    assert (Hp : JS.truthy permission = true).
    { destruct permission; [|reflexivity].
      simpl in Ht. injection Ht as <- _. discriminate. }
    now rewrite Hp, Ht, Hs, Hn.
Qed.

Lemma splitPermission_inl permission e :
  splitPermission permission = inl e -> e = InvalidFormatError permission.
Proof.
  unfold splitPermission.
  destruct (JS.truthy permission); simpl; [|congruence].
  destruct (JS.split _ permission) as [|h [|h2 t]]; try congruence.
  destruct (negb (JS.truthy h) || negb (JS.truthy h2)); congruence.
Qed.

(** The malformed descriptors are exactly those the callback rejects. *)
Lemma splitPermission_malformed permission :
  malformed permission <->
  splitPermission permission = inl (InvalidFormatError permission).
Proof.
  split.
  - intros Hm.
    destruct (splitPermission permission) as [e|[service permissionName]] eqn:Hsp.
    { now rewrite (splitPermission_inl _ _ Hsp). }
    exfalso. apply splitPermission_inr in Hsp.
    destruct Hsp as (Hs & Hn & Hsp).
    apply (proj2 (split_first_two _ _ _ _)) in Hsp. destruct Hsp as [t Ht].
    unfold malformed, missingSeparator, emptyService, emptyName in Hm.
    destruct (separatorOf_cases permission) as [[E Hc]|[E Hc]];
      rewrite E in *; clear E;
      destruct Hm as [[Hc' Hsl]|[[rest Hm]|(sv & Hsv & [Hm|[rest Hm]])]];
      try congruence;
      try (rewrite split_no_sep in Ht by assumption; discriminate);
      rewrite Hm in Ht; simpl in Ht;
      try (rewrite split_app in Ht by assumption; simpl in Ht);
      congruence.
  - unfold splitPermission.
    destruct (JS.truthy permission) eqn:Tp; simpl.
    2:{ intros _. apply truthy_false in Tp. subst. now left. }
    destruct (JS.split _ permission) as [|h [|h2 t]] eqn:Hs.
    + now destruct (split_not_nil _ _ Hs).
    + intros _. left.
      destruct (split_inv _ _ _ _ Hs) as [Hh [[_ ->]|(s' & _ & Ht)]].
      2:{ symmetry in Ht. now destruct (split_not_nil _ _ Ht). }
      destruct (separatorOf_cases h) as [[E Hc]|[E Hc]];
        rewrite E in Hh; [congruence | now split].
    + destruct (split_inv _ _ _ _ Hs) as [Hh [[? _]|(s' & Hp & Ht)]]; [discriminate|].
      symmetry in Ht.
      destruct (JS.truthy h) eqn:Th; simpl.
      2:{ intros _. right; left. apply truthy_false in Th. subst h.
          now exists s'. }
      destruct (JS.truthy h2) eqn:Th2; simpl; [discriminate|].
      intros _. right; right. apply truthy_false in Th2. subst h2.
      exists h. split; [exact Hh|].
      destruct (split_inv _ _ _ _ Ht) as [_ [[_ ->]|(s2 & -> & _)]].
      * now left.
      * right. now exists s2.
Qed.

(** Both spellings of a pair are well-formed exactly when the service and
    the permission name are non-empty and hold neither separator. *)
Lemma wellFormed_spellings service permissionName :
  wellFormed (service +:+ String ":" permissionName) /\
  wellFormed (service +:+ String "/" permissionName) <->
  JS.truthy service = true /\ JS.truthy permissionName = true /\
  separatorFree service /\ separatorFree permissionName.
Proof.
  assert (Hcolon : separatorOf (service +:+ String ":" permissionName) = ":"%char).
  { rewrite separatorOf_spec, has_char_app. simpl. now rewrite orb_true_r. }
  unfold wellFormed, separatorFree. rewrite Hcolon. split.
  - intros [[Hc (s1 & n1 & Hs1 & Hn1 & E1)] [Hsl _]].
    pose proof Hc as Hc1. rewrite E1 in Hc1.
    rewrite occurrences_app in Hc, Hc1. simpl in Hc, Hc1.
    assert (Hsc : occurrences ":" service = 0%nat) by lia.
    assert (Hnc : occurrences ":" permissionName = 0%nat) by lia.
    assert (Hs1c : occurrences ":" s1 = 0%nat) by lia.
    assert (Hn1c : occurrences ":" n1 = 0%nat) by lia.
    apply occurrences_none in Hsc, Hnc, Hs1c, Hn1c.
    apply (f_equal (JS.split ":")) in E1.
    rewrite !split_app, !split_no_sep in E1 by assumption.
    injection E1 as -> ->.
    assert (Hslash : separatorOf (s1 +:+ String "/" n1) = "/"%char).
    { rewrite separatorOf_spec, has_char_app, Hsc. simpl. now rewrite Hnc. }
    rewrite Hslash, occurrences_app in Hsl. simpl in Hsl.
    assert (Hss : occurrences "/" s1 = 0%nat) by lia.
    assert (Hns : occurrences "/" n1 = 0%nat) by lia.
    apply occurrences_none in Hss, Hns. now repeat split.
  - intros (Hs & Hn & [Hsc Hss] & [Hnc Hns]).
    assert (Hslash : separatorOf (service +:+ String "/" permissionName) = "/"%char).
    { rewrite separatorOf_spec, has_char_app, Hsc. simpl. now rewrite Hnc. }
    rewrite Hslash, !occurrences_app. simpl.
    apply occurrences_none in Hsc, Hss, Hnc, Hns.
    rewrite Hsc, Hss, Hnc, Hns. repeat split; eauto.
Qed.

End Splitting.

(* ===================================================================== *)
(** * Reading traces                                                       *)
(* ===================================================================== *)

Section Traces.

Implicit Types (t a b : list event) (f : event -> bool).

Lemma count_app f a b : count f (a ++ b) = (count f a + count f b)%nat.
Proof. unfold count. now rewrite List.filter_app, length_app. Qed.

Lemma count_none f t : Forall (fun e => f e = false) t -> count f t = 0%nat.
Proof.
  unfold count. induction 1 as [|e t He _ IH]; simpl; [reflexivity|].
  now rewrite He.
Qed.

Lemma count_all f t : Forall (fun e => f e = true) t -> count f t = length t.
Proof.
  unfold count. induction 1 as [|e t He _ IH]; simpl; [reflexivity|].
  rewrite He. simpl. now rewrite IH.
Qed.

Lemma postedPayload_skip a b :
  count is_post_issue a = 0%nat -> postedPayload (a ++ b) = postedPayload b.
Proof.
  unfold count. induction a as [|e a IH]; simpl; [reflexivity|].
  destruct e as [[| |]| | | |]; simpl; try exact IH. discriminate.
Qed.

Lemma postedPayload_none t :
  count is_post_issue t = 0%nat -> postedPayload t = None.
Proof.
  intros H. rewrite <- (app_nil_r t). now rewrite postedPayload_skip.
Qed.






End Traces.

(* ===================================================================== *)
(** * The IP allow-list fetch                                              *)
(* ===================================================================== *)

Section Fetch.

Variable w : World.

Lemma fetchGitHubIPs_retry attempt batch retries :
  unanswered (meta w attempt) = true ->
  fetchGitHubIPs w attempt batch (S retries)
  = ([Issued GetMeta; Settled GetMeta; Sleep 1000]
       ++ (fetchGitHubIPs w (S attempt) batch retries).1,
     (fetchGitHubIPs w (S attempt) batch retries).2).
Proof.
  intros H. cbn [fetchGitHubIPs].
  destruct (fetchGitHubIPs w (S attempt) batch retries) as [t ips].
  now destruct (meta w attempt).
Qed.

Lemma fetchGitHubIPs_last attempt batch :
  unanswered (meta w attempt) = true ->
  fetchGitHubIPs w attempt batch 0 = ([Issued GetMeta; Settled GetMeta], Ranges []).
Proof. intros H. cbn [fetchGitHubIPs]. now destruct (meta w attempt). Qed.

Lemma fetchGitHubIPs_now attempt batch retries data :
  meta w attempt = MetaData data ->
  fetchGitHubIPs w attempt batch retries
  = ([Issued GetMeta; Settled GetMeta], pickBatch data batch).
Proof. intros H. destruct retries; cbn [fetchGitHubIPs]; now rewrite H. Qed.

Lemma unanswered_cases r :
  unanswered r = true \/ exists data, r = MetaData data.
Proof. destruct r; simpl; eauto. Qed.

Lemma fetchGitHubIPs_trace attempt batch retries :
  exists n, (1 <= n <= S retries)%nat /\
            fetchTrace n (fetchGitHubIPs w attempt batch retries).1.
Proof.
  revert attempt. induction retries as [|r IH]; intros attempt.
  - exists 1%nat. split; [lia|].
    destruct (unanswered_cases (meta w attempt)) as [H|[data H]].
    + rewrite fetchGitHubIPs_last by exact H. constructor.
    + rewrite (fetchGitHubIPs_now _ _ _ _ H). constructor.
  - destruct (unanswered_cases (meta w attempt)) as [H|[data H]].
    + rewrite fetchGitHubIPs_retry by exact H.
      destruct (IH (S attempt)) as (n & Hn & Ht).
      exists (S n). split; [lia|]. now constructor.
    + rewrite (fetchGitHubIPs_now _ _ _ _ H).
      exists 1%nat. split; [lia|]. constructor.
Qed.

Lemma fetchTrace_counts n t :
  fetchTrace n t ->
  count is_meta_issue t = n /\ count is_sleep t = Nat.pred n /\
  count is_catalog_issue t = 0%nat /\ count is_post_issue t = 0%nat /\
  Forall (fun e => is_sleep e = true -> e = Sleep 1000) t /\
  (forall cur, inFlightAfter cur t = cur /\ maxInFlight cur t = S cur).
Proof.
  induction 1 as [|n t Ht (IH1 & IH2 & IH3 & IH4 & IH5 & IH6)].
  - repeat split; try reflexivity.
    + repeat constructor; discriminate.
    + simpl. lia.
  - rewrite !count_app, IH1, IH2, IH3, IH4.
    repeat split; try reflexivity.
    + inversion Ht; reflexivity.
    + repeat constructor; try discriminate. exact IH5.
    + simpl. apply IH6.
    + simpl. destruct (IH6 cur) as [_ ->]. lia.
Qed.





Lemma pickBatch_inherited data batch :
  data !! batch = None -> JS.inherited batch = true ->
  pickBatch data batch = NotAList.
Proof. intros H Hi. unfold pickBatch, JS.getMember. now rewrite H, Hi. Qed.

End Fetch.

(* ===================================================================== *)
(** * The answers of the catalog                                           *)
(* ===================================================================== *)

Section Delivery.

Variable w : World.

Lemma seen_spec i (seen : list nat) :
  existsb (Nat.eqb i) seen = true <-> i ∈ seen.
Proof.
  rewrite existsb_exists. split.
  - intros (x & Hin & Hx). apply Nat.eqb_eq in Hx. subst.
    now apply list_elem_of_In.
  - intros H. exists i. split; [now apply list_elem_of_In | apply Nat.eqb_refl].
Qed.

Lemma elem_of_firstOccurrences seen l i :
  i ∈ firstOccurrences seen l <-> i ∈ l /\ i ∉ seen.
Proof.
  revert seen. induction l as [|x l IH]; intros seen; simpl.
  - split; [intros H; inversion H | intros [H _]; inversion H].
  - destruct (existsb (Nat.eqb x) seen) eqn:Hx.
    + apply seen_spec in Hx. rewrite IH, elem_of_cons.
      split; [tauto|]. intros [[->|H] Hn]; tauto.
    + assert (Hn : x ∉ seen).
      { intros H. apply seen_spec in H. congruence. }
      rewrite !elem_of_cons, IH, elem_of_cons.
      split.
      * intros [->|[H1 H2]]; tauto.
      * intros [[->|H] H2]; [now left|].
        destruct (decide (i = x)) as [->|Hne]; [now left | right; tauto].
Qed.

Lemma NoDup_firstOccurrences seen l : NoDup (firstOccurrences seen l).
Proof.
  revert seen. induction l as [|x l IH]; intros seen; simpl; [constructor|].
  destruct (existsb (Nat.eqb x) seen); [apply IH|].
  constructor; [|apply IH].
  rewrite elem_of_firstOccurrences, elem_of_cons. tauto.
Qed.

(** Numbers already seen are left out. *)
Lemma firstOccurrences_seen seen l :
  (forall i, i ∈ l -> i ∈ seen) -> firstOccurrences seen l = [].
Proof.
  intros H. induction l as [|x l IH]; simpl; [reflexivity|].
  assert (Hx : existsb (Nat.eqb x) seen = true).
  { apply seen_spec, H. now left. }
  rewrite Hx. apply IH. intros i Hi. apply H. now right.
Qed.

(** A list without repetition stands as it is at the head of the result. *)
Lemma firstOccurrences_app seen a b :
  NoDup a -> (forall i, i ∈ a -> i ∉ seen) ->
  firstOccurrences seen (a ++ b) = a ++ firstOccurrences (rev a ++ seen) b.
Proof.
  revert seen. induction a as [|x a IH]; intros seen Hnd Hs; simpl; [reflexivity|].
  apply NoDup_cons in Hnd as [Hx Hnd].
  assert (Hn : existsb (Nat.eqb x) seen = false).
  { destruct (existsb (Nat.eqb x) seen) eqn:E; [|reflexivity].
    apply seen_spec in E. exfalso. apply (Hs x); [now left | exact E]. }
  rewrite Hn. f_equal. rewrite IH.
  - now rewrite <- app_assoc.
  - exact Hnd.
  - intros i Hi. rewrite elem_of_cons. intros [->|H]; [tauto|].
    apply (Hs i); [now right | exact H].
Qed.

Lemma elem_of_deliveryOrder k arr i : i ∈ deliveryOrder k arr <-> (i < k)%nat.
Proof.
  unfold deliveryOrder.
  rewrite elem_of_firstOccurrences, elem_of_app, list_elem_of_filter, elem_of_seq.
  split.
  - intros [[[H _]|H] _]; lia.
  - intros H. split; [right; lia | intros Hn; inversion Hn].
Qed.

(** Every answer is handled exactly once. *)
Lemma length_deliveryOrder k arr : length (deliveryOrder k arr) = k.
Proof.
  transitivity (length (seq 0 k)); [|apply length_seq].
  apply Permutation_length, NoDup_Permutation.
  - apply NoDup_firstOccurrences.
  - apply NoDup_seq.
  - intros i. rewrite elem_of_deliveryOrder, elem_of_seq. lia.
Qed.

Lemma filter_below k (l : list nat) :
  (forall i, i ∈ l -> (i < k)%nat) -> filter (fun i => (i < k)%nat) l = l.
Proof.
  induction l as [|x l IH]; intros H; [reflexivity|].
  rewrite filter_cons. destruct (decide (x < k)%nat) as [_|Hn].
  - f_equal. apply IH. intros i Hi. apply H. now right.
  - exfalso. apply Hn, H. now left.
Qed.

(** An arrival order that names every request once is the order in which
    the answers are handled. *)
Lemma deliveryOrder_honoured k arr :
  arr ≡ₚ seq 0 k -> deliveryOrder k arr = arr.
Proof.
  intros Hp. unfold deliveryOrder.
  assert (Hin : forall i, i ∈ arr <-> (i < k)%nat).
  { intros i. rewrite Hp, elem_of_seq. lia. }
  rewrite filter_below by (intros i; apply Hin).
  rewrite firstOccurrences_app.
  - rewrite firstOccurrences_seen; [apply app_nil_r|].
    intros i Hi. rewrite elem_of_app. left.
    apply list_elem_of_In, in_rev. rewrite rev_involutive.
    apply list_elem_of_In.
    apply Hin. apply elem_of_seq in Hi. lia.
  - rewrite Hp. apply NoDup_seq.
  - intros i _ Hn. inversion Hn.
Qed.

Lemma settle_events pending order :
  Forall (fun e => exists c, e = Settled c) (settle w pending order).1.
Proof.
  induction order as [|i order IH]; simpl; [constructor|].
  destruct (pending !! i) as [[service permissionName]|]; [|exact IH].
  destruct (getPermissionGroupId _ _).
  - repeat constructor. eauto.
  - destruct (settle w pending order) as [t r]. constructor; eauto.
Qed.

(** No failure was met: every answer handled was a success, and there is
    one event for each. *)
Lemma settle_ok pending order :
  (settle w pending order).2 = None ->
  (forall i service permissionName,
      i ∈ order -> pending !! i = Some (service, permissionName) ->
      exists groupId,
        getPermissionGroupId (catalog w i) permissionName = inr groupId) /\
  ((forall i, i ∈ order -> (i < length pending)%nat) ->
   length (settle w pending order).1 = length order).
Proof.
  induction order as [|i order IH]; simpl.
  - intros _. split; [|reflexivity]. intros i s n Hi. inversion Hi.
  - destruct (pending !! i) as [[service permissionName]|] eqn:Hp.
    + destruct (getPermissionGroupId (catalog w i) permissionName) as [e|gid] eqn:Hg.
      { discriminate. }
      destruct (settle w pending order) as [t r]. simpl in *.
      intros Hr. destruct (IH Hr) as [IH1 IH2]. split.
      * intros j s n Hj Hpj. apply elem_of_cons in Hj as [->|Hj].
        -- rewrite Hp in Hpj. injection Hpj as <- <-. eauto.
        -- eauto.
      * intros Hlt. f_equal. apply IH2. intros j Hj. apply Hlt.
        now apply elem_of_cons; right.
    + intros Hr. destruct (IH Hr) as [IH1 IH2]. split.
      * intros j s n Hj Hpj. apply elem_of_cons in Hj as [->|Hj].
        -- congruence.
        -- eauto.
      * intros Hlt. exfalso.
        assert (i < length pending)%nat as Hi
            by (apply Hlt, elem_of_cons; now left).
        apply lookup_lt_is_Some_2 in Hi. rewrite Hp in Hi. now destruct Hi.
Qed.

(** A failure was met: it is the failure of one of the requests. *)
Lemma settle_failed pending order e :
  (settle w pending order).2 = Some e ->
  exists i service permissionName,
    i ∈ order /\ pending !! i = Some (service, permissionName) /\
    getPermissionGroupId (catalog w i) permissionName = inl e.
Proof.
  induction order as [|i order IH]; simpl; [discriminate|].
  destruct (pending !! i) as [[service permissionName]|] eqn:Hp.
  - destruct (getPermissionGroupId (catalog w i) permissionName) as [e'|gid] eqn:Hg.
    + simpl. intros H. injection H as <-.
      exists i, service, permissionName. repeat split; auto. now left.
    + destruct (settle w pending order) as [t r]. simpl in *.
      intros Hr. destruct (IH Hr) as (j & s & n & Hj & H1 & H2).
      exists j, s, n. repeat split; auto. now right.
  - intros Hr. destruct (IH Hr) as (j & s & n & Hj & H1 & H2).
    exists j, s, n. repeat split; auto. now right.
Qed.

(** When every answer handled is a success, there is one event for each,
    in the order in which they are handled. *)
Lemma settle_all_ok pending order :
  (forall i service permissionName,
      i ∈ order -> pending !! i = Some (service, permissionName) ->
      exists groupId,
        getPermissionGroupId (catalog w i) permissionName = inr groupId) ->
  (settle w pending order).1
  = omap (fun i => (fun sp => Settled (GetPermissionGroups sp.2)) <$> pending !! i)
         order.
Proof.
  induction order as [|i order IH]; intros Hok; [reflexivity|].
  cbn [settle omap list_omap].
  assert (IH' : (settle w pending order).1
                = omap (fun i => (fun sp => Settled (GetPermissionGroups sp.2))
                                   <$> pending !! i) order).
  { apply IH. intros j s n Hj. apply Hok. now right. }
  destruct (pending !! i) as [[service permissionName]|] eqn:Hp; simpl.
  - destruct (Hok i service permissionName) as [g Hg]; [now left | exact Hp |].
    rewrite Hg. destruct (settle w pending order) as [t r]. simpl in *.
    now rewrite IH'.
  - exact IH'.
Qed.

Lemma settlePhase_ok callbacks :
  (settlePhase w callbacks).2 = None ->
  (forall i service permissionName,
      pendingOf callbacks !! i = Some (service, permissionName) ->
      exists groupId,
        getPermissionGroupId (catalog w i) permissionName = inr groupId) /\
  length (settlePhase w callbacks).1 = length (pendingOf callbacks).
Proof.
  unfold settlePhase. intros H. destruct (settle_ok _ _ H) as [H1 H2]. split.
  - intros i s n Hp. apply (H1 i s n); [|exact Hp].
    apply elem_of_deliveryOrder. now apply lookup_lt_Some in Hp.
  - rewrite H2, length_deliveryOrder; [reflexivity|].
    intros i. now rewrite elem_of_deliveryOrder.
Qed.

Lemma settlePhase_failed callbacks e :
  (settlePhase w callbacks).2 = Some e ->
  exists i service permissionName,
    pendingOf callbacks !! i = Some (service, permissionName) /\
    getPermissionGroupId (catalog w i) permissionName = inl e.
Proof.
  unfold settlePhase. intros H.
  destruct (settle_failed _ _ _ H) as (i & s & n & _ & H1 & H2). eauto.
Qed.

End Delivery.

(** [getPermissionGroupId] succeeds only on an entry of the catalog whose
    name is exactly the name asked for, and fails with
    [PermissionNotFoundError] when there is none. *)
Lemma getPermissionGroupId_found result permissionName groupId :
  getPermissionGroupId (CatalogOk result) permissionName = inr groupId ->
  (permissionName, groupId) ∈ result.
Proof.
  simpl. destruct (List.find _ result) as [[n g]|] eqn:Hf; [|discriminate].
  intros H. injection H as <-.
  apply List.find_some in Hf as [Hin Heq]. simpl in Heq.
  apply String.eqb_eq in Heq. subst. now apply list_elem_of_In.
Qed.

Lemma getPermissionGroupId_exact result permissionName :
  (exists groupId, getPermissionGroupId (CatalogOk result) permissionName = inr groupId)
  <-> permissionName ∈ result.*1.
Proof.
  split.
  - intros [g H]. apply getPermissionGroupId_found in H.
    apply list_elem_of_fmap. now exists (permissionName, g).
  - intros H. apply list_elem_of_fmap in H as ([n g] & -> & Hin). simpl.
    destruct (List.find _ result) as [[n' g']|] eqn:Hf; [eauto|].
    exfalso. apply list_elem_of_In in Hin.
    pose proof (List.find_none _ _ Hf _ Hin) as Hn. simpl in Hn.
    now rewrite String.eqb_refl in Hn.
Qed.

Lemma getPermissionGroupId_not_found result permissionName :
  permissionName ∉ result.*1 ->
  getPermissionGroupId (CatalogOk result) permissionName
  = inl (PermissionNotFoundError permissionName).
Proof.
  intros H. simpl.
  destruct (List.find _ result) as [[n g]|] eqn:Hf; [|reflexivity].
  exfalso. apply H, getPermissionGroupId_exact. simpl. rewrite Hf. eauto.
Qed.

(* ===================================================================== *)
(** * Resolving one descriptor                                             *)
(* ===================================================================== *)

Section Resolution.

Variable cfg : Config.
Implicit Types (permissionGroupIds : gmap string string).

(** The account identifier is put in front exactly when the resource does
    not hold it already. *)
Lemma withAccount_spec resource :
  withAccount cfg resource =
  if JS.includes resource (ACCOUNT_ID cfg) then resource
  else ACCOUNT_ID cfg +:+ "." +:+ resource.
Proof.
  unfold withAccount.
  destruct (JS.truthy (ACCOUNT_ID cfg)) eqn:Ht; simpl.
  - destruct (JS.startsWith resource (ACCOUNT_ID cfg)) eqn:Hs; simpl.
    + now rewrite (startsWith_includes _ _ Hs).
    + now destruct (JS.includes resource (ACCOUNT_ID cfg)).
  - apply truthy_false in Ht. rewrite Ht. now rewrite includes_empty.
Qed.

Lemma getMember_own {A : Type} (own : gmap string A) key v :
  JS.getMember own key = JS.Own v <-> own !! key = Some v.
Proof.
  unfold JS.getMember. destruct (own !! key).
  - split; congruence.
  - destruct (JS.inherited key); split; discriminate.
Qed.

Lemma getMember_missing {A : Type} (own : gmap string A) key :
  JS.getMember own key = JS.Missing <->
  own !! key = None /\ JS.inherited key = false.
Proof.
  unfold JS.getMember. destruct (own !! key).
  - split; [discriminate | intros [? _]; discriminate].
  - destruct (JS.inherited key); split; try discriminate; try tauto.
    intros [_ ?]; discriminate.
Qed.

Lemma getMember_inherited {A : Type} (own : gmap string A) key :
  JS.getMember own key = JS.Inherited <->
  own !! key = None /\ JS.inherited key = true.
Proof.
  unfold JS.getMember. destruct (own !! key).
  - split; [discriminate | intros [? _]; discriminate].
  - destruct (JS.inherited key); split; try discriminate; try tauto.
    intros [_ ?]; discriminate.
Qed.

(** A callback throws at one of two places: at the format checks, or at
    the use of a member its name inherits. *)
Lemma startPermission_thrown permissionGroupIds permission e :
  startPermission cfg permissionGroupIds permission = Thrown e <->
  splitPermission permission = inl e \/
  exists service permissionName,
    splitPermission permission = inr (service, permissionName) /\
    JS.getMember permissionGroupIds (JS.trim permissionName) = JS.Inherited /\
    e = TypeError (JS.trim permissionName).
Proof.
  unfold startPermission.
  destruct (splitPermission permission) as [e'|[service permissionName]].
  - split; [intros H; left; congruence|].
    intros [H|(s & n & H & _)]; congruence.
  - destruct (JS.getMember permissionGroupIds (JS.trim permissionName))
      as [resource| |] eqn:Hm.
    + destruct (negb (JS.truthy resource)); split; try discriminate;
        intros [H|(s & n & H & H' & _)]; try discriminate;
        injection H as <- <-; congruence.
    + split.
      * intros H. injection H as <-. right. now exists service, permissionName.
      * intros [H|(s & n & H & _ & ->)]; [discriminate|].
        now injection H as <- <-.
    + split; [discriminate|].
      intros [H|(s & n & H & H' & _)]; [discriminate|].
      injection H as <- <-. congruence.
Qed.

(** A non-empty local entry: the callback returns without suspending. *)
Lemma startPermission_local permissionGroupIds permission service permissionName resource :
  splitPermission permission = inr (service, permissionName) ->
  permissionGroupIds !! JS.trim permissionName = Some resource ->
  resource <> EmptyString ->
  startPermission cfg permissionGroupIds permission
  = Resolved (policyOf cfg service resource).
Proof.
  intros Hs Hl Hr. unfold startPermission.
  apply getMember_own in Hl. rewrite Hs, Hl.
  apply truthy_true in Hr. now rewrite Hr.
Qed.

(** An empty local entry, or no member at all under the name: the callback
    asks the catalog. *)
Lemma startPermission_remote permissionGroupIds permission service permissionName :
  splitPermission permission = inr (service, permissionName) ->
  permissionGroupIds !! JS.trim permissionName = Some EmptyString \/
  JS.getMember permissionGroupIds (JS.trim permissionName) = JS.Missing ->
  startPermission cfg permissionGroupIds permission
  = Awaiting service (JS.trim permissionName).
Proof.
  intros Hs [Hl|Hl]; unfold startPermission.
  - apply getMember_own in Hl. now rewrite Hs, Hl.
  - now rewrite Hs, Hl.
Qed.

(** The name of an inherited member, without an entry of its own: the
    callback throws, and asks nothing. *)
Lemma startPermission_inherited permissionGroupIds permission service permissionName :
  splitPermission permission = inr (service, permissionName) ->
  JS.getMember permissionGroupIds (JS.trim permissionName) = JS.Inherited ->
  startPermission cfg permissionGroupIds permission
  = Thrown (TypeError (JS.trim permissionName)).
Proof. intros Hs Hl. unfold startPermission. now rewrite Hs, Hl. Qed.

(** What a callback that did not throw did, read off its descriptor. *)
Lemma startPermission_cases permissionGroupIds permission :
  (exists e, startPermission cfg permissionGroupIds permission = Thrown e) \/
  exists service permissionName,
    splitPermission permission = inr (service, permissionName) /\
    ((exists resource,
         permissionGroupIds !! JS.trim permissionName = Some resource /\
         JS.truthy resource = true /\
         startPermission cfg permissionGroupIds permission
         = Resolved (policyOf cfg service resource)) \/
     ((permissionGroupIds !! JS.trim permissionName = Some EmptyString \/
       JS.getMember permissionGroupIds (JS.trim permissionName) = JS.Missing) /\
      startPermission cfg permissionGroupIds permission
      = Awaiting service (JS.trim permissionName))).
Proof.
  unfold startPermission.
  destruct (splitPermission permission) as [e|[service permissionName]];
    [left; eauto|].
  destruct (JS.getMember permissionGroupIds (JS.trim permissionName))
    as [resource| |] eqn:Hm.
  - right. exists service, permissionName. split; [reflexivity|].
    apply getMember_own in Hm.
    destruct (JS.truthy resource) eqn:Ht; simpl.
    + left. now exists resource.
    + right. apply truthy_false in Ht. subst. split; [now left | reflexivity].
  - left. eauto.
  - right. exists service, permissionName. split; [reflexivity|].
    right. split; [now right | reflexivity].
Qed.

(** The id of the permission group is the last dot-separated piece of
    the resource key. *)
Lemma policyOf_shape service resource0 :
  exists key id,
    key = withAccount cfg resource0 /\
    resources (policyOf cfg service resource0) = {[ key := "*" ]} /\
    permission_groups (policyOf cfg service resource0)
    = [ {| pg_id := id; pg_meta_key := "service"; pg_meta_value := service |} ] /\
    JS.has_char "." id = false /\
    (key = id \/ exists pre, key = pre +:+ "." +:+ id).
Proof.
  unfold policyOf. simpl.
  destruct (last (JS.split "." (withAccount cfg resource0))) as [id|] eqn:Hl.
  - exists (withAccount cfg resource0), id.
    destruct (split_last _ _ _ Hl) as [H1 H2].
    unfold JS.pop. rewrite Hl. now repeat split.
  - apply last_None in Hl. now destruct (split_not_nil _ _ Hl).
Qed.

End Resolution.

(* ===================================================================== *)
(** * The shape of a run                                                   *)
(* ===================================================================== *)

Section Runs.

Variables (cfg : Config) (w : World).

Lemma fetchPhase_facts whitelistGitHubIPs githubIPBatch :
  let t := (fetchPhase w whitelistGitHubIPs githubIPBatch).1 in
  count is_catalog_issue t = 0%nat /\ count is_post_issue t = 0%nat /\
  (count is_meta_issue t <= 4)%nat /\
  (forall cur, inFlightAfter cur t = cur /\ (maxInFlight cur t <= S cur)%nat).
Proof.
  unfold fetchPhase. destruct whitelistGitHubIPs; cbv zeta.
  - destruct (fetchGitHubIPs_trace w 0 githubIPBatch 3) as (n & Hn & Ht).
    destruct (fetchTrace_counts _ _ Ht) as (H1 & _ & H3 & H4 & _ & H6).
    repeat split; auto; try lia; destruct (H6 cur); lia.
  - repeat split; simpl; auto; lia.
Qed.

Lemma fetchPhase_off githubIPBatch :
  fetchPhase w false githubIPBatch = ([], Ranges []).
Proof. reflexivity. Qed.

Lemma issuedBy_facts callbacks :
  Forall (fun e => is_issue e = true) (issuedBy callbacks) /\
  length (issuedBy callbacks) = length (pendingOf callbacks) /\
  count is_catalog_issue (issuedBy callbacks) = length (pendingOf callbacks) /\
  count is_post_issue (issuedBy callbacks) = 0%nat /\
  count is_meta_issue (issuedBy callbacks) = 0%nat.
Proof.
  unfold issuedBy.
  induction (pendingOf callbacks) as [|sp l (IH1 & IH2 & IH3 & IH4 & IH5)]; simpl.
  - repeat split. constructor.
  - unfold count in *. simpl.
    repeat split;
      [now constructor | f_equal; exact IH2 | f_equal; exact IH3
       | exact IH4 | exact IH5].
Qed.

Lemma settled_counts t :
  Forall (fun e => exists c, e = Settled c) t ->
  count is_catalog_issue t = 0%nat /\ count is_post_issue t = 0%nat /\
  count is_meta_issue t = 0%nat /\ count is_issue t = 0%nat.
Proof.
  intros H; repeat split; apply count_none;
    (eapply Forall_impl; [exact H|]); now intros e [c ->].
Qed.

Lemma submit_facts payload :
  postedPayload (trace (submit w payload)) = Some payload /\
  count is_catalog_issue (trace (submit w payload)) = 0%nat /\
  count is_post_issue (trace (submit w payload)) = 1%nat /\
  maxInFlight 0 (trace (submit w payload)) = 1%nat.
Proof. unfold submit. destruct (post w payload); now repeat split. Qed.

(** The three ways a run goes: a callback threw; a catalog request
    failed; the request body was built and sent. *)
Lemma createToken_shape name permissions expiration whitelistGitHubIPs githubIPBatch :
  let fp := fetchPhase w whitelistGitHubIPs githubIPBatch in
  let callbacks := callbacksOf cfg permissions in
  let sp := settlePhase w callbacks in
  let payload := buildPayload w name (collect cfg w 0 callbacks) expiration
                              whitelistGitHubIPs fp.2 in
  let r := createToken cfg w name permissions expiration
                       whitelistGitHubIPs githubIPBatch in
  (exists e, firstThrown callbacks = Some e /\
             trace r = fp.1 ++ issuedBy callbacks ++ [Exit 1] /\
             outcome r = inl e) \/
  (firstThrown callbacks = None /\
   exists e, sp.2 = Some e /\
             trace r = fp.1 ++ issuedBy callbacks ++ sp.1 ++ [Exit 1] /\
             outcome r = inl e) \/
  (firstThrown callbacks = None /\ sp.2 = None /\
   trace r = fp.1 ++ issuedBy callbacks ++ sp.1 ++ trace (submit w payload) /\
   outcome r = outcome (submit w payload)).
Proof.
  intros fp callbacks sp payload r. subst r payload. unfold createToken.
  fold fp callbacks sp. destruct fp as [fetched githubIPs]. simpl.
  destruct (firstThrown callbacks) as [e|].
  - left. now exists e.
  - right. destruct sp as [settled [e|]]; simpl.
    + left. split; [reflexivity|]. now exists e.
    + right. now repeat split.
Qed.

End Runs.

Section RunFacts.

Variables (cfg : Config) (w : World).
Variables (name : string) (permissions : list string) (expiration : option string).
Variables (whitelistGitHubIPs : bool) (githubIPBatch : string).

Local Abbreviation fp := (fetchPhase w whitelistGitHubIPs githubIPBatch).
Local Abbreviation callbacks := (callbacksOf cfg permissions).
Local Abbreviation sp := (settlePhase w (callbacksOf cfg permissions)).
Local Abbreviation r :=
  (createToken cfg w name permissions expiration whitelistGitHubIPs githubIPBatch).

Lemma run_shape :
  (exists e, firstThrown callbacks = Some e /\
             trace r = fp.1 ++ issuedBy callbacks ++ [Exit 1] /\
             outcome r = inl e) \/
  (firstThrown callbacks = None /\
   exists e, sp.2 = Some e /\
             trace r = fp.1 ++ issuedBy callbacks ++ sp.1 ++ [Exit 1] /\
             outcome r = inl e) \/
  (firstThrown callbacks = None /\ sp.2 = None /\
   trace r = fp.1 ++ issuedBy callbacks ++ sp.1 ++
             trace (submit w (buildPayload w name (collect cfg w 0 callbacks)
                                expiration whitelistGitHubIPs fp.2)) /\
   outcome r = outcome (submit w (buildPayload w name (collect cfg w 0 callbacks)
                                    expiration whitelistGitHubIPs fp.2))).
Proof.
  exact (createToken_shape cfg w name permissions expiration
           whitelistGitHubIPs githubIPBatch).
Qed.

Lemma run_counts :
  count is_post_issue fp.1 = 0%nat /\
  count is_post_issue (issuedBy callbacks) = 0%nat /\
  count is_post_issue sp.1 = 0%nat.
Proof.
  destruct (fetchPhase_facts w whitelistGitHubIPs githubIPBatch) as (_ & Hf & _).
  destruct (issuedBy_facts callbacks) as (_ & _ & _ & Hi & _).
  destruct (settled_counts _ (settle_events w (pendingOf callbacks)
              (deliveryOrder (length (pendingOf callbacks)) (arrival w))))
    as (_ & Hs & _).
  now repeat split.
Qed.

(** Every run starts with the fetch, then hands every catalog request to
    the HTTP client; what follows holds no further catalog request. *)
Lemma createToken_prefix :
  exists rest,
    trace r = fp.1 ++ issuedBy callbacks ++ rest /\
    count is_catalog_issue rest = 0%nat /\
    Forall (fun e => is_catalog_issue e = false) rest.
Proof.
  assert (Hset : Forall (fun e => is_catalog_issue e = false) sp.1).
  { eapply Forall_impl; [apply settle_events|]. now intros e [c ->]. }
  assert (Hsub : forall p, Forall (fun e => is_catalog_issue e = false)
                                  (trace (submit w p))).
  { intros p. unfold submit. destruct (post w p); repeat constructor. }
  destruct run_shape
    as [(e & _ & Ht & _)|[(_ & e & _ & Ht & _)|(_ & _ & Ht & _)]];
    rewrite Ht.
  - exists [Exit 1]. repeat split. repeat constructor.
  - exists (sp.1 ++ [Exit 1]).
    assert (Forall (fun e => is_catalog_issue e = false) (sp.1 ++ [Exit 1]))
      by (apply Forall_app; split; [exact Hset | repeat constructor]).
    repeat split; [now apply count_none | assumption].
  - eexists. split; [reflexivity|].
    assert (Forall (fun e => is_catalog_issue e = false)
              (sp.1 ++ trace (submit w (buildPayload w name
                 (collect cfg w 0 callbacks) expiration whitelistGitHubIPs fp.2))))
      by (apply Forall_app; split; [exact Hset | apply Hsub]).
    split; [now apply count_none | assumption].
Qed.

(** One catalog request for each callback that suspended. *)
Lemma createToken_catalog_requests :
  count is_catalog_issue (trace r) = length (pendingOf callbacks).
Proof.
  destruct createToken_prefix as (rest & -> & Hrest & _).
  rewrite !count_app, Hrest.
  destruct (fetchPhase_facts w whitelistGitHubIPs githubIPBatch) as (Hf & _).
  rewrite Hf.
  destruct (issuedBy_facts callbacks) as (_ & _ & -> & _). lia.
Qed.

(** The request body that was sent is the one [buildPayload] makes, and
    it is sent only when no callback threw and no catalog request failed. *)
Lemma createToken_posted payload :
  postedPayload (trace r) = Some payload ->
  firstThrown callbacks = None /\ sp.2 = None /\
  payload = buildPayload w name (collect cfg w 0 callbacks) expiration
                         whitelistGitHubIPs fp.2.
Proof.
  destruct run_counts as (Hf & Hi & Hs).
  destruct run_shape
    as [(e & _ & Ht & _)|[(_ & e & _ & Ht & _)|(H1 & H2 & Ht & _)]];
    rewrite Ht;
    rewrite !postedPayload_skip by assumption.
  - discriminate.
  - discriminate.
  - destruct (submit_facts w (buildPayload w name (collect cfg w 0 callbacks)
                expiration whitelistGitHubIPs fp.2)) as (-> & _).
    intros H. injection H as <-. now repeat split.
Qed.

(** A run in which a callback threw or a catalog request failed ends
    with [process.exit(1)] and sends no POST. *)
Lemma createToken_aborted :
  firstThrown callbacks <> None \/ sp.2 <> None ->
  (exists e, outcome r = inl e /\
             (firstThrown callbacks = Some e \/
              (firstThrown callbacks = None /\ sp.2 = Some e))) /\
  count is_post_issue (trace r) = 0%nat /\
  postedPayload (trace r) = None.
Proof.
  intros Hfail.
  destruct run_counts as (Hf & Hi & Hs).
  assert (Hc : (exists e, outcome r = inl e /\
                  (firstThrown callbacks = Some e \/
                   (firstThrown callbacks = None /\ sp.2 = Some e))) /\
               count is_post_issue (trace r) = 0%nat).
  { destruct (createToken_shape cfg w name permissions expiration
                whitelistGitHubIPs githubIPBatch)
      as [(e & H1 & Ht & Ho)|[(H1 & e & H2 & Ht & Ho)|(H1 & H2 & _)]];
      idtac.
    - split; [eauto|]. rewrite Ht, !count_app, Hf, Hi. reflexivity.
    - split; [eauto|]. rewrite Ht, !count_app, Hf, Hi, Hs. reflexivity.
    - destruct Hfail; congruence. }
  destruct Hc as [Hc1 Hc2]. repeat split; auto.
  now apply postedPayload_none.
Qed.

(** A catalog request that fails is fatal for the whole run. *)
Lemma createToken_lookup_fatal i service permissionName e :
  pendingOf callbacks !! i = Some (service, permissionName) ->
  getPermissionGroupId (catalog w i) permissionName = inl e ->
  (exists e', outcome r = inl e') /\ postedPayload (trace r) = None.
Proof.
  intros Hp Hg.
  assert (Hfail : firstThrown callbacks <> None \/ sp.2 <> None).
  { right. intros Hn. apply settlePhase_ok in Hn as [Hn _].
    destruct (Hn _ _ _ Hp) as [g Hg']. congruence. }
  destruct (createToken_aborted Hfail) as ((e' & Ho & _) & _ & Hpp).
  split; eauto.
Qed.


End RunFacts.

Section Callbacks.

Variable cfg : Config.

Lemma firstThrown_Some (l : list started) e :
  firstThrown l = Some e -> Thrown e ∈ l.
Proof.
  induction l as [|s l IH]; simpl; [discriminate|].
  destruct s; intros H.
  - injection H as ->. now left.
  - right. auto.
  - right. auto.
Qed.

Lemma firstThrown_None (l : list started) e :
  firstThrown l = None -> Thrown e ∉ l.
Proof.
  induction l as [|s l IH]; simpl; intros H Hin.
  - inversion Hin.
  - apply elem_of_cons in Hin as [<-|Hin]; [discriminate|].
    destruct s; try discriminate; now apply IH.
Qed.

(** The error of a run whose callbacks threw is that of a descriptor of
    the input: a malformed one, or one whose name is that of an inherited
    member. *)
Lemma callbacks_thrown permissions e :
  firstThrown (callbacksOf cfg permissions) = Some e ->
  exists permission,
    permission ∈ permissions /\
    ((malformed permission /\ e = InvalidFormatError permission) \/
     (hitsPrototype cfg permission /\
      exists service permissionName,
        splitPermission permission = inr (service, permissionName) /\
        e = TypeError (JS.trim permissionName))).
Proof.
  intros H. apply firstThrown_Some in H.
  apply list_elem_of_fmap in H as (permission & Hs & Hin).
  symmetry in Hs. apply startPermission_thrown in Hs.
  exists permission. split; [exact Hin|].
  destruct Hs as [Hs|(service & permissionName & Hs & Hm & ->)].
  - left. pose proof (splitPermission_inl _ _ Hs) as ->.
    split; [now apply splitPermission_malformed | reflexivity].
  - right. split; [now exists service, permissionName|].
    now exists service, permissionName.
Qed.

Lemma callbacks_malformed permissions permission :
  permission ∈ permissions -> malformed permission ->
  firstThrown (callbacksOf cfg permissions) <> None.
Proof.
  intros Hin Hm Hn. apply splitPermission_malformed in Hm.
  apply (firstThrown_None _ (InvalidFormatError permission)) in Hn.
  apply Hn. apply list_elem_of_fmap. exists permission. split; [|exact Hin].
  symmetry. apply startPermission_thrown. now left.
Qed.

Lemma callbacks_hitsPrototype permissions permission :
  permission ∈ permissions -> hitsPrototype cfg permission ->
  firstThrown (callbacksOf cfg permissions) <> None.
Proof.
  intros Hin (service & permissionName & Hs & Hm) Hn.
  apply (firstThrown_None _ (TypeError (JS.trim permissionName))) in Hn.
  apply Hn. apply list_elem_of_fmap. exists permission. split; [|exact Hin].
  symmetry. now apply (startPermission_inherited cfg _ _ service permissionName).
Qed.

(** When every descriptor splits and none names an inherited member, the
    first callback that threw is the first malformed descriptor. *)
Lemma firstThrown_format permissions e :
  (forall d, d ∈ permissions -> ~ hitsPrototype cfg d) ->
  firstThrown (callbacksOf cfg permissions) = Some e ->
  exists permission,
    permission ∈ permissions /\ malformed permission /\
    e = InvalidFormatError permission.
Proof.
  intros Hno H.
  destruct (callbacks_thrown _ _ H) as (d & Hin & [[Hm ->]|[Hh _]]).
  - now exists d.
  - now destruct (Hno d Hin).
Qed.

(** The descriptors whose callback throws. *)
Lemma startPermission_throws d e :
  startPermission cfg (getPermissionGroupIds cfg) d = Thrown e <->
  (malformed d /\ e = InvalidFormatError d) \/
  (hitsPrototype cfg d /\
   exists service permissionName,
     splitPermission d = inr (service, permissionName) /\
     e = TypeError (JS.trim permissionName)).
Proof.
  rewrite startPermission_thrown. split.
  - intros [Hs|(service & permissionName & Hs & Hm & ->)].
    + left. pose proof (splitPermission_inl _ _ Hs) as ->.
      split; [now apply splitPermission_malformed | reflexivity].
    + right. split; now exists service, permissionName.
  - intros [[Hm ->]|[(s' & n' & Hs' & Hm') (service & permissionName & Hs & ->)]].
    + left. now apply splitPermission_malformed.
    + right. exists service, permissionName. split; [exact Hs|].
      split; [|reflexivity].
      rewrite Hs in Hs'. now injection Hs' as <- <-.
Qed.

Lemma startPermission_throws_iff d :
  (exists e, startPermission cfg (getPermissionGroupIds cfg) d = Thrown e) <->
  malformed d \/ hitsPrototype cfg d.
Proof.
  split.
  - intros [e He]. apply startPermission_throws in He as [[H _]|[H _]]; tauto.
  - intros [Hm|Hh].
    + exists (InvalidFormatError d). apply startPermission_throws. now left.
    + pose proof Hh as (service & permissionName & Hs & _).
      exists (TypeError (JS.trim permissionName)). apply startPermission_throws.
      right. split; [exact Hh|]. now exists service, permissionName.
Qed.

(** [Promise.all] rejects with the error of the first callback that
    threw. *)
Lemma firstThrown_first permissions e :
  firstThrown (callbacksOf cfg permissions) = Some e ->
  exists j bad,
    permissions !! j = Some bad /\
    startPermission cfg (getPermissionGroupIds cfg) bad = Thrown e /\
    forall i d, (i < j)%nat -> permissions !! i = Some d ->
                ~ malformed d /\ ~ hitsPrototype cfg d.
Proof.
  unfold callbacksOf.
  induction permissions as [|permission l IH]; [discriminate|].
  rewrite fmap_cons. cbn [firstThrown].
  destruct (startPermission cfg (getPermissionGroupIds cfg) permission)
    as [e'|p|service permissionName] eqn:Hp.
  - intros H. injection H as ->. exists 0%nat, permission.
    split; [reflexivity|]. split; [exact Hp|]. intros i d Hi. lia.
  - intros H. destruct (IH H) as (j & bad & Hj & Hb & Hbefore).
    exists (S j), bad. split; [exact Hj|]. split; [exact Hb|].
    intros [|i] d Hi Hd.
    + simpl in Hd. injection Hd as <-.
      split; intros Hx;
        destruct (proj2 (startPermission_throws_iff permission)) as [x Hx'];
        [now left| |now right|]; congruence.
    + apply (Hbefore i d); [lia | exact Hd].
  - intros H. destruct (IH H) as (j & bad & Hj & Hb & Hbefore).
    exists (S j), bad. split; [exact Hj|]. split; [exact Hb|].
    intros [|i] d Hi Hd.
    + simpl in Hd. injection Hd as <-.
      split; intros Hx;
        destruct (proj2 (startPermission_throws_iff permission)) as [x Hx'];
        [now left| |now right|]; congruence.
    + apply (Hbefore i d); [lia | exact Hd].
Qed.

Lemma firstThrown_iff permissions :
  firstThrown (callbacksOf cfg permissions) <> None <->
  exists d, d ∈ permissions /\ (malformed d \/ hitsPrototype cfg d).
Proof.
  split.
  - destruct (firstThrown (callbacksOf cfg permissions)) as [e|] eqn:He;
      [|congruence].
    intros _. destruct (firstThrown_first _ _ He) as (j & bad & Hj & Hb & _).
    exists bad. split; [now apply list_elem_of_lookup_2 in Hj|].
    apply startPermission_throws_iff. eauto.
  - intros (d & Hin & [Hm|Hh]).
    + now apply (callbacks_malformed _ d).
    + now apply (callbacks_hitsPrototype _ d).
Qed.

Lemma pendingOf_cons s (l : list started) :
  pendingOf (s :: l) =
  match s with
  | Awaiting service permissionName => (service, permissionName) :: pendingOf l
  | _ => pendingOf l
  end.
Proof. now destruct s. Qed.

(** When no callback threw and every catalog request succeeded, the
    values collected are the policies of the descriptors, one for each, in
    input order. *)
Lemma collect_in_order w k permissions :
  firstThrown (callbacksOf cfg permissions) = None ->
  (forall i service permissionName,
      pendingOf (callbacksOf cfg permissions) !! i = Some (service, permissionName) ->
      exists groupId,
        getPermissionGroupId (catalog w (k + i)) permissionName = inr groupId) ->
  Forall2 (policyFor cfg) permissions
          (collect cfg w k (callbacksOf cfg permissions)).
Proof.
  unfold callbacksOf. revert k.
  induction permissions as [|permission l IH]; intros k Hthrown Hok.
  - constructor.
  - rewrite fmap_cons in *. rewrite pendingOf_cons in Hok.
    destruct (startPermission_cases cfg (getPermissionGroupIds cfg) permission)
      as [[e He]|(service & permissionName & Hs &
                  [(resource & Hl & Ht & He)|[Hl He]])];
      rewrite He in Hthrown, Hok |- *; [discriminate|..];
      simpl in Hthrown; cbn [collect].
    + constructor.
      * exists service, permissionName, resource. now split.
      * apply IH; [exact Hthrown | exact Hok].
    + destruct (Hok 0%nat service (JS.trim permissionName) eq_refl) as [g Hg].
      rewrite Nat.add_0_r in Hg. rewrite Hg. constructor.
      * exists service, permissionName, (service +:+ "." +:+ g). now split.
      * apply IH; [exact Hthrown|].
        intros i s n Hp. destruct (Hok (S i) s n Hp) as [g' Hg'].
        exists g'. now replace (S k + i)%nat with (k + S i)%nat by lia.
Qed.

(** And each of them is exactly the policy its descriptor resolves to:
    that of its non-empty local entry, or that of the id the catalog gave
    to the request it sent. *)
Lemma collect_exact w k permissions :
  firstThrown (callbacksOf cfg permissions) = None ->
  (forall i service permissionName,
      pendingOf (callbacksOf cfg permissions) !! i = Some (service, permissionName) ->
      exists groupId,
        getPermissionGroupId (catalog w (k + i)) permissionName = inr groupId) ->
  forall j d,
    permissions !! j = Some d ->
    exists p,
      collect cfg w k (callbacksOf cfg permissions) !! j = Some p /\
      resolvesTo cfg w (k + lookupsBefore cfg permissions j) d p.
Proof.
  unfold lookupsBefore, callbacksOf. revert k.
  induction permissions as [|permission l IH]; intros k Hthrown Hok j d Hj.
  - rewrite lookup_nil in Hj. discriminate.
  - rewrite fmap_cons in Hthrown, Hok |- *. rewrite pendingOf_cons in Hok.
    destruct (startPermission_cases cfg (getPermissionGroupIds cfg) permission)
      as [[e He]|(service & permissionName & Hs &
                  [(resource & Hl & Ht & He)|[Hl He]])];
      rewrite He in Hthrown, Hok |- *; [discriminate|..];
      simpl in Hthrown; cbn [collect].
    + destruct j as [|j].
      * simpl in Hj. injection Hj as <-.
        exists (policyOf cfg service resource). split; [reflexivity|].
        exists service, permissionName. split; [exact Hs|].
        left. now exists resource.
      * simpl in Hj. destruct (IH k Hthrown Hok j d Hj) as (p & Hp & Hr).
        exists p. split; [exact Hp|].
        cbn [take]. rewrite fmap_cons, pendingOf_cons, He. exact Hr.
    + destruct (Hok 0%nat service (JS.trim permissionName) eq_refl) as [g Hg].
      rewrite Nat.add_0_r in Hg. rewrite Hg.
      destruct j as [|j].
      * simpl in Hj. injection Hj as <-.
        exists (resumePermission cfg service g). split; [reflexivity|].
        exists service, permissionName. split; [exact Hs|].
        right. exists g. split; [exact Hl|]. split; [|reflexivity].
        cbn [take fmap list_fmap pendingOf omap list_omap length].
        now rewrite Nat.add_0_r.
      * simpl in Hj.
        destruct (IH (S k) Hthrown) with (j := j) (d := d) as (p & Hp & Hr);
          [|exact Hj|].
        { intros i s n Hpi. destruct (Hok (S i) s n Hpi) as [g' Hg'].
          exists g'. now replace (S k + i)%nat with (k + S i)%nat by lia. }
        exists p. split; [exact Hp|].
        cbn [take]. rewrite fmap_cons, pendingOf_cons, He. cbn [length].
        now replace (k + S (length (pendingOf (startPermission cfg
                       (getPermissionGroupIds cfg) <$> take j l))))%nat
          with (S k + length (pendingOf (startPermission cfg
                       (getPermissionGroupIds cfg) <$> take j l)))%nat by lia.
Qed.

End Callbacks.

(* ===================================================================== *)
(** * The date of the request                                              *)
(* ===================================================================== *)

Section Dates.

Lemma digit_not_dot d : 0 <= d < 10 -> Ascii.eqb (Date.digit d) "." = false.
Proof.
  intros H.
  assert (d = 0 \/ d = 1 \/ d = 2 \/ d = 3 \/ d = 4 \/
          d = 5 \/ d = 6 \/ d = 7 \/ d = 8 \/ d = 9) as Hd by lia.
  repeat (destruct Hd as [->|Hd]; [reflexivity|]). now subst.
Qed.

Lemma digits_no_dot width n : JS.has_char "." (Date.digits width n) = false.
Proof.
  revert n. induction width as [|width IH]; intros n;
    cbn [Date.digits]; [reflexivity|].
  rewrite has_char_app, IH. cbn [JS.has_char orb].
  rewrite digit_not_dot; [reflexivity|]. apply Z.mod_pos_bound. lia.
Qed.

Lemma yearString_no_dot y : JS.has_char "." (Date.yearString y) = false.
Proof.
  unfold Date.yearString.
  destruct (_ && _); [apply digits_no_dot|].
  destruct (y <? 0); cbn [JS.has_char]; simpl Ascii.eqb; apply digits_no_dot.
Qed.

Lemma dateTime_no_dot secs : JS.has_char "." (Date.dateTime secs) = false.
Proof.
  unfold Date.dateTime. destruct (Date.civil _) as [[y m] d].
  rewrite !has_char_app, yearString_no_dot, !digits_no_dot. reflexivity.
Qed.

(** [split('.')[0] + 'Z'] keeps the date and the time down to the second. *)
Lemma notBefore_spec t : notBefore t = Date.dateTime (t / 1000) +:+ "Z".
Proof.
  unfold notBefore, Date.toISOString.
  change (Date.dateTime (t / 1000) +:+ "." +:+ Date.digits 3 (t mod 1000) +:+ "Z")
    with (Date.dateTime (t / 1000) +:+
          String "." (Date.digits 3 (t mod 1000) +:+ "Z")).
  rewrite split_app by apply dateTime_no_dot. reflexivity.
Qed.

(** The same instant with its milliseconds removed prints the same date
    and time, followed by [.000Z]. *)
Lemma toISOString_wholeSeconds t :
  Date.toISOString (Date.wholeSeconds t) = Date.dateTime (t / 1000) +:+ ".000Z".
Proof.
  unfold Date.toISOString, Date.wholeSeconds.
  replace (1000 * (t / 1000) / 1000) with (t / 1000)
    by (rewrite Z.mul_comm, Z.div_mul; lia).
  replace ((1000 * (t / 1000)) mod 1000) with 0
    by (rewrite Z.mul_comm, Z.mod_mul; lia).
  reflexivity.
Qed.

End Dates.

(* ===================================================================== *)
(** * The program on the examples of the specification                     *)
(* ===================================================================== *)

Example toISOString_epoch : Date.toISOString 0 = "1970-01-01T00:00:00.000Z".
Proof. reflexivity. Qed.

Example toISOString_leap_day :
  Date.toISOString 1709208000123 = "2024-02-29T12:00:00.123Z".
Proof. vm_compute. reflexivity. Qed.

Example toISOString_before_epoch :
  Date.toISOString (-1) = "1969-12-31T23:59:59.999Z".
Proof. vm_compute. reflexivity. Qed.

Example notBefore_sample : notBefore (now Sample.world) = "2025-06-01T12:30:45Z".
Proof. vm_compute. reflexivity. Qed.

(** [PERMISSION_AccountSettingsRead] becomes [Account Settings Read]. *)
Example getPermissionGroupIds_account :
  getPermissionGroupIds Sample.account = {[ "Account Settings Read" := "abc123" ]}.
Proof. vm_compute. reflexivity. Qed.

Example splitPermission_slash :
  splitPermission "com.cloudflare.api.account/Account Settings Read"
  = inr ("com.cloudflare.api.account", "Account Settings Read").
Proof. reflexivity. Qed.

Example splitPermission_no_separator :
  splitPermission "bad" = inl (InvalidFormatError "bad").
Proof. reflexivity. Qed.

(** A permission that the catalog knows: one request, then the POST. *)
Example createToken_remote :
  createToken Sample.bare Sample.smallCatalog "Generated Token"
              ["zone:Zone Read"] (Some "2025-12-31T23:59:59Z") true "actions"
  = {| trace :=
         [ Issued GetMeta; Settled GetMeta;
           Issued (GetPermissionGroups "Zone Read");
           Settled (GetPermissionGroups "Zone Read");
           Issued (PostToken (Sample.body (Some (Ranges ["1.2.3.0/24"]))
                                          (Some "2025-12-31T23:59:59Z")));
           Settled (PostToken (Sample.body (Some (Ranges ["1.2.3.0/24"]))
                                           (Some "2025-12-31T23:59:59Z")));
           SaveFile "cf-token.txt" "secret" ];
       outcome := inr Sample.created |}.
Proof. vm_compute. reflexivity. Qed.

(** A permission that the catalog does not know. *)
Example createToken_not_found :
  createToken Sample.bare Sample.smallCatalog "Generated Token"
              ["zone:Zone Write"] None false "actions"
  = {| trace := [ Issued (GetPermissionGroups "Zone Write");
                  Settled (GetPermissionGroups "Zone Write"); Exit 1 ];
       outcome := inl (PermissionNotFoundError "Zone Write") |}.
Proof. vm_compute. reflexivity. Qed.

(** The registry is down: four GETs, three pauses, and an empty list in
    the condition of the request. *)
Example createToken_registry_down :
  trace (createToken Sample.account Sample.registryDown "Generated Token"
                     ["com.cloudflare.api.account:Account Settings Read"]
                     None true "actions")
  = [ Issued GetMeta; Settled GetMeta; Sleep 1000;
      Issued GetMeta; Settled GetMeta; Sleep 1000;
      Issued GetMeta; Settled GetMeta; Sleep 1000;
      Issued GetMeta; Settled GetMeta;
      Issued (PostToken
                {| name := "Generated Token";
                   policies :=
                     [ policyOf Sample.account "com.cloudflare.api.account"
                                "abc123" ];
                   condition := Some (Ranges []);
                   expires_on := None;
                   not_before := "2025-06-01T12:30:45Z" |});
      Settled (PostToken
                 {| name := "Generated Token";
                    policies :=
                      [ policyOf Sample.account "com.cloudflare.api.account"
                                 "abc123" ];
                    condition := Some (Ranges []);
                    expires_on := None;
                    not_before := "2025-06-01T12:30:45Z" |});
      SaveFile "cf-token.txt" "secret" ].
Proof. vm_compute. reflexivity. Qed.

(** A permission name that every object inherits: the callback sends no
    request and throws; the error of the first callback that threw is
    reported. *)
Example createToken_inherited_name :
  createToken Sample.bare Sample.world "Generated Token"
              ["zone:constructor"; "bad"] None false "actions"
  = {| trace := [Exit 1]; outcome := inl (TypeError "constructor") |}.
Proof. vm_compute. reflexivity. Qed.

(** Nothing is stored for the variable [PERMISSION___proto__]. *)
Example getPermissionGroupIds_proto :
  getPermissionGroupIds
    {| CLOUDFLARE_API_TOKEN := "token"; ACCOUNT_ID := "ACCT1";
       env := [("PERMISSION___proto__", "abc")] |} = ∅.
Proof. vm_compute. reflexivity. Qed.

(** The answers to two catalog requests, handled in the order in which
    they arrive. *)
Example createToken_out_of_order :
  trace (createToken Sample.bare (withArrival Sample.smallCatalog [1%nat; 0%nat])
                     "Generated Token" ["zone:Zone Read"; "zone:Zone Write"]
                     None false "actions")
  = [ Issued (GetPermissionGroups "Zone Read");
      Issued (GetPermissionGroups "Zone Write");
      Settled (GetPermissionGroups "Zone Write");
      Exit 1 ].
Proof. vm_compute. reflexivity. Qed.

(** A numeric-looking argument reaches the handler as a number. *)
Example generateCommand_number :
  generateCommand Sample.bare Sample.world
    {| argv_permissions := [ArgString "zone:Zone Read"; ArgNumber "123"];
       argv_valid_until := None; argv_batch := "actions";
       argv_no_github_ips := false |}
  = HandlerThrew.
Proof. reflexivity. Qed.

(* ===================================================================== *)
(** * The properties of the specification                                  *)
(* ===================================================================== *)

(** ** Splitting (C4, C9) *)

(** C4, as stated, fails: the descriptor is cut at every occurrence of
    the separator and only the first two pieces are kept, so ["a:b:c"]
    gives the permission name ["b"], not ["b:c"]; and the two pieces are
    tested for emptiness before they are trimmed, so ["a: "] is accepted
    with a permission name that trims to the empty string. *)
Lemma C4_split_drops_the_tail :
  splitPermission "a:b:c" = inr ("a", "b") /\
  splitPermission "a:b:c" <> inr ("a", "b:c") /\
  splitPermission "a: " = inr ("a", " ") /\ JS.trim " " = "".
Proof. repeat split. discriminate. Qed.

(** C4, amended: the separator is [':'] when the descriptor holds one and
    ['/'] otherwise; the descriptor is cut at every occurrence of it and
    the first two pieces are the service and the permission name, whatever
    follows a second separator being dropped; the split fails, with
    [InvalidFormatError], exactly when the descriptor is malformed, that is
    unless both pieces exist and are non-empty as they stand. *)
Theorem C4_split_first_two_pieces permission :
  separatorOf permission
  = (if JS.has_char ":" permission then ":"%char else "/"%char) /\
  (forall service permissionName,
      splitPermission permission = inr (service, permissionName) <->
      firstTwoPieces permission service permissionName) /\
  (forall e, splitPermission permission = inl e ->
             e = InvalidFormatError permission) /\
  (splitPermission permission = inl (InvalidFormatError permission) <->
   malformed permission).
Proof.
  split; [apply separatorOf_spec|].
  split; [intros; apply splitPermission_inr|].
  split; [intros e; apply splitPermission_inl|].
  symmetry. apply splitPermission_malformed.
Qed.

Lemma C4_split_first_two_pieces_witness :
  splitPermission "a:b:c" = inr ("a", "b").
Proof.
  apply (proj2 (proj1 (proj2 (C4_split_first_two_pieces "a:b:c")) "a" "b")).
  repeat split; try discriminate. right. now exists "c".
Defined.

(** C9: when the two spellings [service:name] and [service/name] of a
    service and a permission name are well-formed descriptors, both split
    into the pair (service, name), and the callback does the same on
    both. *)
Theorem C9_separator_is_transparent service permissionName :
  wellFormed (service +:+ ":" +:+ permissionName) ->
  wellFormed (service +:+ "/" +:+ permissionName) ->
  splitPermission (service +:+ ":" +:+ permissionName)
  = inr (service, permissionName) /\
  splitPermission (service +:+ "/" +:+ permissionName)
  = inr (service, permissionName) /\
  forall cfg permissionGroupIds,
    startPermission cfg permissionGroupIds (service +:+ ":" +:+ permissionName)
    = startPermission cfg permissionGroupIds (service +:+ "/" +:+ permissionName).
Proof.
  change (service +:+ ":" +:+ permissionName)
    with (service +:+ String ":" permissionName).
  change (service +:+ "/" +:+ permissionName)
    with (service +:+ String "/" permissionName).
  intros Hw1 Hw2.
  destruct (proj1 (wellFormed_spellings service permissionName) (conj Hw1 Hw2))
    as (Hs & Hn & [Hsc Hss] & [Hnc Hns]).
  apply truthy_true in Hs, Hn.
  assert (Hcolon : separatorOf (service +:+ String ":" permissionName) = ":"%char).
  { rewrite separatorOf_spec, has_char_app. simpl. now rewrite orb_true_r. }
  assert (Hslash : separatorOf (service +:+ String "/" permissionName) = "/"%char).
  { rewrite separatorOf_spec, has_char_app, Hsc. simpl. now rewrite Hnc. }
  assert (H1 : splitPermission (service +:+ String ":" permissionName)
               = inr (service, permissionName)).
  { apply splitPermission_inr. unfold firstTwoPieces. rewrite Hcolon.
    repeat split; auto. }
  assert (H2 : splitPermission (service +:+ String "/" permissionName)
               = inr (service, permissionName)).
  { apply splitPermission_inr. unfold firstTwoPieces. rewrite Hslash.
    repeat split; auto. }
  repeat split; auto.
  intros cfg ids. unfold startPermission. now rewrite H1, H2.
Qed.

Lemma C9_separator_is_transparent_witness :
  splitPermission "zone:Zone Read" = inr ("zone", "Zone Read") /\
  splitPermission "zone/Zone Read" = inr ("zone", "Zone Read") /\
  forall cfg permissionGroupIds,
    startPermission cfg permissionGroupIds "zone:Zone Read"
    = startPermission cfg permissionGroupIds "zone/Zone Read".
Proof.
  apply (C9_separator_is_transparent "zone" "Zone Read").
  - split; [reflexivity|]. exists "zone", "Zone Read". repeat split.
  - split; [reflexivity|]. exists "zone", "Zone Read". repeat split.
Defined.

(** ** Resolution (C2, C5, C10) *)

(** C2, as stated, fails: on the specification's own example the resource
    key is ["ACCT1.abc123"]; the service is not part of it. *)
Lemma C2_service_is_not_joined :
  startPermission Sample.account {[ "Account Settings Read" := "abc123" ]}
                  "com.cloudflare.api.account:Account Settings Read"
  = Resolved
      {| effect := "allow";
         permission_groups :=
           [ {| pg_id := "abc123"; pg_meta_key := "service";
                pg_meta_value := "com.cloudflare.api.account" |} ];
         resources := {[ "ACCT1.abc123" := "*" ]} |} /\
  ({[ "ACCT1.abc123" := "*" ]} : gmap string string)
  <> {[ "com.cloudflare.api.account.ACCT1.abc123" := "*" ]}.
Proof.
  split; [vm_compute; reflexivity|].
  intros H. apply (f_equal (fun m => m !! "ACCT1.abc123")) in H.
  vm_compute in H. discriminate.
Qed.

(** C2, amended: for a descriptor whose trimmed permission name has a
    non-empty entry in the local mapping, the resource key is that entry,
    with the account identifier and a dot put in front exactly when the
    entry does not hold the account identifier as a substring; the service
    is not joined to it.  The id of the permission group in the policy is
    the last dot-separated piece of the resource key. *)
Theorem C2_local_resource_key cfg (permissionGroupIds : gmap string string)
    permission service permissionName resource :
  splitPermission permission = inr (service, permissionName) ->
  permissionGroupIds !! JS.trim permissionName = Some resource ->
  JS.truthy resource = true ->
  exists key id,
    startPermission cfg permissionGroupIds permission
    = Resolved
        {| effect := "allow";
           permission_groups :=
             [ {| pg_id := id; pg_meta_key := "service";
                  pg_meta_value := service |} ];
           resources := {[ key := "*" ]} |} /\
    key = (if JS.includes resource (ACCOUNT_ID cfg) then resource
           else ACCOUNT_ID cfg +:+ "." +:+ resource) /\
    JS.has_char "." id = false /\
    (key = id \/ exists pre, key = pre +:+ "." +:+ id).
Proof.
  intros Hs Hl Ht. apply truthy_true in Ht.
  rewrite (startPermission_local cfg _ _ _ _ _ Hs Hl Ht).
  destruct (policyOf_shape cfg service resource)
    as (key & id & Hk & Hr & Hg & Hid & Hlast).
  exists key, id. rewrite <- withAccount_spec, <- Hk.
  repeat split; auto.
  f_equal. rewrite <- Hr, <- Hg. reflexivity.
Qed.

Lemma C2_local_resource_key_witness :
  exists key id,
    startPermission Sample.account (getPermissionGroupIds Sample.account)
                    "com.cloudflare.api.account:Account Settings Read"
    = Resolved
        {| effect := "allow";
           permission_groups :=
             [ {| pg_id := id; pg_meta_key := "service";
                  pg_meta_value := "com.cloudflare.api.account" |} ];
           resources := {[ key := "*" ]} |} /\
    key = (if JS.includes "abc123" (ACCOUNT_ID Sample.account) then "abc123"
           else ACCOUNT_ID Sample.account +:+ "." +:+ "abc123") /\
    JS.has_char "." id = false /\
    (key = id \/ exists pre, key = pre +:+ "." +:+ id).
Proof.
  apply (C2_local_resource_key Sample.account
           (getPermissionGroupIds Sample.account)
           "com.cloudflare.api.account:Account Settings Read"
           "com.cloudflare.api.account" "Account Settings Read" "abc123");
    [reflexivity | vm_compute; reflexivity | reflexivity].
Defined.

(** C5, as stated, fails: a local mapping entry with an empty value does
    not keep the resolution local; the catalog is asked. *)
Lemma C5_empty_entry_goes_remote :
  getPermissionGroupIds Sample.emptyEntry !! JS.trim "Zone Read" = Some "" /\
  trace (createToken Sample.emptyEntry Sample.world "Generated Token"
                     ["zone:Zone Read"] None false "actions")
  = [ Issued (GetPermissionGroups "Zone Read");
      Settled (GetPermissionGroups "Zone Read");
      Issued (PostToken (Sample.body None None));
      Settled (PostToken (Sample.body None None));
      SaveFile "cf-token.txt" "secret" ].
Proof. split; vm_compute; reflexivity. Qed.

(** C5, amended: a descriptor whose trimmed permission name has a
    non-empty local entry is resolved without any request; one whose name
    has no local entry, and is not the name of a member every object
    inherits, sends exactly one request to the catalog, for the trimmed
    name; the answer gives an id exactly when the catalog lists a group
    under that very name, and [PermissionNotFoundError] otherwise; and a
    request that fails makes the whole run fail, without any POST. *)
Theorem C5_local_first_then_catalog cfg (permissionGroupIds : gmap string string)
    permission service permissionName :
  splitPermission permission = inr (service, permissionName) ->
  (forall resource,
      permissionGroupIds !! JS.trim permissionName = Some resource ->
      JS.truthy resource = true ->
      issuedBy [startPermission cfg permissionGroupIds permission] = []) /\
  (permissionGroupIds !! JS.trim permissionName = None ->
   JS.inherited (JS.trim permissionName) = false ->
   issuedBy [startPermission cfg permissionGroupIds permission]
   = [Issued (GetPermissionGroups (JS.trim permissionName))]) /\
  (forall result,
      (exists groupId,
          getPermissionGroupId (CatalogOk result) (JS.trim permissionName)
          = inr groupId)
      <-> JS.trim permissionName ∈ result.*1) /\
  (forall result,
      JS.trim permissionName ∉ result.*1 ->
      getPermissionGroupId (CatalogOk result) (JS.trim permissionName)
      = inl (PermissionNotFoundError (JS.trim permissionName))) /\
  (forall w name permissions expiration whitelistGitHubIPs githubIPBatch i e,
      pendingOf (callbacksOf cfg permissions) !! i
      = Some (service, JS.trim permissionName) ->
      getPermissionGroupId (catalog w i) (JS.trim permissionName) = inl e ->
      (exists e',
          outcome (createToken cfg w name permissions expiration
                               whitelistGitHubIPs githubIPBatch) = inl e') /\
      postedPayload (trace (createToken cfg w name permissions expiration
                                        whitelistGitHubIPs githubIPBatch))
      = None).
Proof.
  intros Hs. split; [|split; [|split; [|split]]].
  - intros resource Hl Ht. apply truthy_true in Ht.
    now rewrite (startPermission_local cfg _ _ _ _ _ Hs Hl Ht).
  - intros Hl Hi. rewrite (startPermission_remote cfg _ _ _ _ Hs); [reflexivity|].
    right. now apply getMember_missing.
  - intros result. apply getPermissionGroupId_exact.
  - intros result. apply getPermissionGroupId_not_found.
  - intros w name permissions expiration whitelistGitHubIPs githubIPBatch i e.
    apply createToken_lookup_fatal.
Qed.

Lemma C5_local_first_then_catalog_witness :
  issuedBy [startPermission Sample.account
              (getPermissionGroupIds Sample.account) "zone:Zone Write"]
  = [Issued (GetPermissionGroups (JS.trim "Zone Write"))].
Proof.
  apply (C5_local_first_then_catalog Sample.account
           (getPermissionGroupIds Sample.account)
           "zone:Zone Write" "zone" "Zone Write");
    [reflexivity | vm_compute; reflexivity | reflexivity].
Defined.

(** C10: when the local mapping gives the empty string for the trimmed
    permission name, the callback does what it does when the mapping gives
    nothing for that name: it asks the catalog for the trimmed name, once;
    and the policy of the request that is sent is made from the service
    and the id the catalog returned, not from the empty string. *)
Theorem C10_empty_entry_is_absent cfg (permissionGroupIds : gmap string string)
    permission service permissionName :
  splitPermission permission = inr (service, permissionName) ->
  permissionGroupIds !! JS.trim permissionName = Some EmptyString ->
  startPermission cfg permissionGroupIds permission
  = Awaiting service (JS.trim permissionName) /\
  (forall absent : gmap string string,
      JS.getMember absent (JS.trim permissionName) = JS.Missing ->
      startPermission cfg permissionGroupIds permission
      = startPermission cfg absent permission) /\
  (JS.inherited (JS.trim permissionName) = false ->
   startPermission cfg permissionGroupIds permission
   = startPermission cfg (delete (JS.trim permissionName) permissionGroupIds)
                     permission) /\
  issuedBy [startPermission cfg permissionGroupIds permission]
  = [Issued (GetPermissionGroups (JS.trim permissionName))] /\
  (forall w name permissions expiration whitelistGitHubIPs githubIPBatch
          payload j,
      permissionGroupIds = getPermissionGroupIds cfg ->
      permissions !! j = Some permission ->
      postedPayload (trace (createToken cfg w name permissions expiration
                                        whitelistGitHubIPs githubIPBatch))
      = Some payload ->
      exists groupId,
        getPermissionGroupId (catalog w (lookupsBefore cfg permissions j))
                             (JS.trim permissionName) = inr groupId /\
        policies payload !! j
        = Some {| effect := "allow";
                  permission_groups :=
                    [ {| pg_id :=
                           default "" (JS.pop (JS.split "."
                             (withAccount cfg (service +:+ "." +:+ groupId))));
                         pg_meta_key := "service";
                         pg_meta_value := service |} ];
                  resources :=
                    {[ withAccount cfg (service +:+ "." +:+ groupId) := "*" ]} |}).
Proof.
  intros Hs Hl.
  assert (H1 : startPermission cfg permissionGroupIds permission
               = Awaiting service (JS.trim permissionName)).
  { apply startPermission_remote; [exact Hs | now left]. }
  rewrite H1. split; [reflexivity|]. split; [|split; [|split; [reflexivity|]]].
  - intros absent Ha. symmetry.
    apply startPermission_remote; [exact Hs | now right].
  - intros Hi. symmetry. apply startPermission_remote; [exact Hs|].
    right. apply getMember_missing. split; [apply lookup_delete_eq | exact Hi].
  - intros w name permissions expiration whitelistGitHubIPs githubIPBatch
           payload j -> Hj Hp.
    apply createToken_posted in Hp as (Hthrown & Hok & ->).
    apply settlePhase_ok in Hok as [Hok _].
    destruct (collect_exact cfg w 0 permissions Hthrown Hok j permission Hj)
      as (p & Hp & (service' & permissionName' & Hs' & Hr)).
    rewrite Hs in Hs'. injection Hs' as <- <-.
    destruct Hr as [(resource & Hr & Ht & _)|(groupId & _ & Hg & ->)].
    + rewrite Hl in Hr. injection Hr as <-. discriminate.
    + exists groupId. split; [exact Hg|]. exact Hp.
Qed.

Lemma C10_empty_entry_is_absent_witness :
  exists groupId,
    getPermissionGroupId
      (catalog Sample.world (lookupsBefore Sample.emptyEntry ["zone:Zone Read"] 0))
      (JS.trim "Zone Read") = inr groupId /\
    policies (Sample.body None None) !! 0%nat
    = Some {| effect := "allow";
              permission_groups :=
                [ {| pg_id :=
                       default "" (JS.pop (JS.split "."
                         (withAccount Sample.emptyEntry
                                      ("zone" +:+ "." +:+ groupId))));
                     pg_meta_key := "service";
                     pg_meta_value := "zone" |} ];
              resources :=
                {[ withAccount Sample.emptyEntry ("zone" +:+ "." +:+ groupId)
                   := "*" ]} |}.
Proof.
  apply (proj2 (proj2 (proj2 (proj2
           (C10_empty_entry_is_absent Sample.emptyEntry
              (getPermissionGroupIds Sample.emptyEntry)
              "zone:Zone Read" "zone" "Zone Read" eq_refl eq_refl))))
           Sample.world "Generated Token" ["zone:Zone Read"] None false "actions"
           (Sample.body None None) 0%nat eq_refl eq_refl).
  vm_compute. reflexivity.
Defined.

(** ** The build (C1, C3, C6, C7, C8) *)

(** C1, as stated, fails: with whitelisting enabled the IP ranges are
    fetched before any descriptor is looked at, and the callbacks of the
    other descriptors have sent their catalog requests by the time the
    malformed one makes the build fail. *)
Lemma C1_requests_before_the_failure :
  malformed "bad" /\
  createToken Sample.bare Sample.world "Generated Token" ["bad"]
              None true "actions"
  = {| trace := [Issued GetMeta; Settled GetMeta; Exit 1];
       outcome := inl (InvalidFormatError "bad") |} /\
  createToken Sample.bare Sample.world "Generated Token"
              ["zone:Zone Read"; "bad"] None false "actions"
  = {| trace := [Issued (GetPermissionGroups "Zone Read"); Exit 1];
       outcome := inl (InvalidFormatError "bad") |}.
Proof.
  split; [left; split; reflexivity|].
  split; vm_compute; reflexivity.
Qed.

(** C1, amended: when the input list holds a malformed descriptor the
    build fails, with the error of the first descriptor of the list whose
    callback throws (the [InvalidFormatError] of a malformed descriptor,
    when no descriptor names an inherited member), and sends no
    token-creation POST; the malformed descriptor itself causes no catalog
    request; and when whitelisting is disabled and no other descriptor
    needs the catalog, no request is sent at all.  By the time the build
    fails the IP ranges have been fetched, when whitelisting is enabled,
    and the catalog requests of the other descriptors have been sent. *)
Theorem C1_malformed_descriptor_aborts cfg w name permissions expiration
    whitelistGitHubIPs githubIPBatch permission :
  permission ∈ permissions -> malformed permission ->
  let r := createToken cfg w name permissions expiration
                       whitelistGitHubIPs githubIPBatch in
  (exists j bad,
      permissions !! j = Some bad /\
      (forall i d, (i < j)%nat -> permissions !! i = Some d ->
                   ~ malformed d /\ ~ hitsPrototype cfg d) /\
      ((malformed bad /\ outcome r = inl (InvalidFormatError bad)) \/
       (hitsPrototype cfg bad /\
        exists service permissionName,
          splitPermission bad = inr (service, permissionName) /\
          outcome r = inl (TypeError (JS.trim permissionName))))) /\
  ((forall d, d ∈ permissions -> ~ hitsPrototype cfg d) ->
   exists bad,
     bad ∈ permissions /\ malformed bad /\
     outcome r = inl (InvalidFormatError bad)) /\
  count is_post_issue (trace r) = 0%nat /\
  issuedBy [startPermission cfg (getPermissionGroupIds cfg) permission] = [] /\
  (whitelistGitHubIPs = false ->
   pendingOf (callbacksOf cfg permissions) = [] ->
   count is_issue (trace r) = 0%nat) /\
  trace r = (fetchPhase w whitelistGitHubIPs githubIPBatch).1
              ++ issuedBy (callbacksOf cfg permissions) ++ [Exit 1] /\
  (whitelistGitHubIPs = true -> (1 <= count is_meta_issue (trace r))%nat) /\
  count is_catalog_issue (trace r) = length (pendingOf (callbacksOf cfg permissions)).
Proof.
  intros Hin Hm r. subst r.
  pose proof (callbacks_malformed cfg _ _ Hin Hm) as Hthrown.
  destruct (createToken_aborted cfg w name permissions expiration
              whitelistGitHubIPs githubIPBatch (or_introl Hthrown))
    as ((e & Ho & [He|[He _]]) & Hpost & _); [|congruence].
  destruct (createToken_shape cfg w name permissions expiration
              whitelistGitHubIPs githubIPBatch)
    as [(e' & _ & Ht & _)|[(Hn & _)|(Hn & _)]]; [|congruence..].
  assert (Hfirst :
    exists j bad,
      permissions !! j = Some bad /\
      (forall i d, (i < j)%nat -> permissions !! i = Some d ->
                   ~ malformed d /\ ~ hitsPrototype cfg d) /\
      ((malformed bad /\ e = InvalidFormatError bad) \/
       (hitsPrototype cfg bad /\
        exists service permissionName,
          splitPermission bad = inr (service, permissionName) /\
          e = TypeError (JS.trim permissionName)))).
  { destruct (firstThrown_first cfg _ _ He) as (j & bad & Hj & Hb & Hbefore).
    exists j, bad. split; [exact Hj|]. split; [exact Hbefore|].
    now apply startPermission_throws. }
  rewrite Ho.
  split; [|split; [|split; [exact Hpost|split; [|split; [|split; [exact Ht|split]]]]]].
  - destruct Hfirst as (j & bad & Hj & Hbefore & [[Hb ->]|[Hb (s & n & Hs & ->)]]).
    + exists j, bad. split; [exact Hj|]. split; [exact Hbefore|]. now left.
    + exists j, bad. split; [exact Hj|]. split; [exact Hbefore|].
      right. split; [exact Hb|]. now exists s, n.
  - intros Hno.
    destruct Hfirst as (j & bad & Hj & _ & [[Hb ->]|[Hb _]]).
    + exists bad. split; [now apply list_elem_of_lookup_2 in Hj|]. now split.
    + apply list_elem_of_lookup_2 in Hj. now destruct (Hno bad Hj).
  - apply splitPermission_malformed in Hm.
    assert (Hs : startPermission cfg (getPermissionGroupIds cfg) permission
                 = Thrown (InvalidFormatError permission))
      by (apply startPermission_thrown; now left).
    now rewrite Hs.
  - intros -> Hp. rewrite Ht. unfold issuedBy. rewrite Hp. reflexivity.
  - intros ->. rewrite Ht, count_app. unfold fetchPhase. cbn [fst].
    destruct (fetchGitHubIPs_trace w 0 githubIPBatch 3) as (n & Hn & Hf).
    destruct (fetchTrace_counts _ _ Hf) as (-> & _). lia.
  - apply createToken_catalog_requests.
Qed.

Lemma C1_malformed_descriptor_aborts_witness :
  trace (createToken Sample.bare Sample.world "Generated Token"
                     ["zone:Zone Read"; "zone:"] None true "actions")
  = (fetchPhase Sample.world true "actions").1
      ++ issuedBy (callbacksOf Sample.bare ["zone:Zone Read"; "zone:"])
      ++ [Exit 1] /\
  (true = true ->
   (1 <= count is_meta_issue
           (trace (createToken Sample.bare Sample.world "Generated Token"
                               ["zone:Zone Read"; "zone:"] None true "actions")))%nat) /\
  count is_catalog_issue
        (trace (createToken Sample.bare Sample.world "Generated Token"
                            ["zone:Zone Read"; "zone:"] None true "actions"))
  = length (pendingOf (callbacksOf Sample.bare ["zone:Zone Read"; "zone:"])).
Proof.
  apply (C1_malformed_descriptor_aborts Sample.bare Sample.world
           "Generated Token" ["zone:Zone Read"; "zone:"] None true "actions"
           "zone:").
  - right. left.
  - right. right. exists "zone". split; [reflexivity|]. left. reflexivity.
Defined.




(** C6: in the request body of every build the IP condition is present
    exactly when whitelisting is enabled; it is absent when whitelisting
    is disabled, and with whitelisting enabled its list is the list the IP
    fetch returned. *)
Theorem C6_condition_iff_whitelist cfg w name permissions expiration
    whitelistGitHubIPs githubIPBatch payload :
  postedPayload (trace (createToken cfg w name permissions expiration
                                    whitelistGitHubIPs githubIPBatch))
  = Some payload ->
  (is_Some (condition payload) <-> whitelistGitHubIPs = true) /\
  (whitelistGitHubIPs = false -> condition payload = None) /\
  (whitelistGitHubIPs = true ->
   condition payload = Some (fetchGitHubIPs w 0 githubIPBatch 3).2).
Proof.
  intros H. apply createToken_posted in H as (_ & _ & ->).
  unfold buildPayload, fetchPhase. simpl.
  destruct whitelistGitHubIPs; repeat split; try discriminate; eauto.
  - intros [x Hx]. discriminate.
Qed.

Lemma C6_condition_iff_whitelist_witness :
  (is_Some (condition (Sample.body (Some (Ranges ["1.2.3.0/24"])) None)) <-> true = true) /\
  (true = false -> condition (Sample.body (Some (Ranges ["1.2.3.0/24"])) None) = None) /\
  (true = true ->
   condition (Sample.body (Some (Ranges ["1.2.3.0/24"])) None)
   = Some (fetchGitHubIPs Sample.world 0 "actions" 3).2).
Proof.
  apply (C6_condition_iff_whitelist Sample.bare Sample.world "Generated Token"
           ["zone:Zone Read"] None true "actions").
  vm_compute. reflexivity.
Defined.

(** C7 does not hold on the code: when the registry's answer has no
    member of its own under the batch key, but the key is the name of a
    member every object inherits ([constructor], [toString], ...),
    [response.data[batch] || []] is that member, not the empty list; and
    it is put as it is in the condition of the token request.  Here the
    registry answers at once, with the ranges of [actions] only. *)
Theorem C7_inherited_batch_is_returned :
  meta Sample.world 0 = MetaData {[ "actions" := RangeList ["1.2.3.0/24"] ]} /\
  ({[ "actions" := RangeList ["1.2.3.0/24"] ]} : gmap string RegistryValue)
    !! "constructor" = None /\
  fetchGitHubIPs Sample.world 0 "constructor" 3
  = ([Issued GetMeta; Settled GetMeta], NotAList) /\
  postedPayload
    (trace (createToken Sample.bare Sample.world "Generated Token"
                        ["zone:Zone Read"] None true "constructor"))
  = Some (Sample.body (Some NotAList) None).
Proof. repeat split; vm_compute; reflexivity. Qed.

(** C8: in the request body of every build [not_before] is the current
    time with its milliseconds removed, printed without the fraction of a
    second; [expires_on] is set only to the expiration string that was
    supplied, is set whenever a non-empty one was supplied, and is absent
    when none was. *)
Theorem C8_dates_of_the_request cfg w name permissions expiration
    whitelistGitHubIPs githubIPBatch payload :
  postedPayload (trace (createToken cfg w name permissions expiration
                                    whitelistGitHubIPs githubIPBatch))
  = Some payload ->
  (exists seconds,
      Date.toISOString (Date.wholeSeconds (now w)) = seconds +:+ ".000Z" /\
      not_before payload = seconds +:+ "Z") /\
  (forall e, expires_on payload = Some e -> expiration = Some e) /\
  (forall e, expiration = Some e -> JS.truthy e = true ->
             expires_on payload = Some e) /\
  (expiration = None -> expires_on payload = None).
Proof.
  intros H. apply createToken_posted in H as (_ & _ & ->).
  unfold buildPayload. cbn [not_before expires_on].
  split; [|split; [|split]].
  - exists (Date.dateTime (now w / 1000)).
    split; [apply toISOString_wholeSeconds | apply notBefore_spec].
  - intros e. destruct expiration as [e'|]; [|discriminate].
    destruct (JS.truthy e'); [congruence | discriminate].
  - intros e -> He. now rewrite He.
  - now intros ->.
Qed.

Lemma C8_dates_of_the_request_witness :
  (exists seconds,
      Date.toISOString (Date.wholeSeconds (now Sample.world))
      = seconds +:+ ".000Z" /\
      not_before (Sample.body (Some (Ranges ["1.2.3.0/24"])) (Some "2025-12-31T23:59:59Z"))
      = seconds +:+ "Z") /\
  (forall e,
      expires_on (Sample.body (Some (Ranges ["1.2.3.0/24"])) (Some "2025-12-31T23:59:59Z"))
      = Some e ->
      Some "2025-12-31T23:59:59Z" = Some e) /\
  (forall e,
      Some "2025-12-31T23:59:59Z" = Some e -> JS.truthy e = true ->
      expires_on (Sample.body (Some (Ranges ["1.2.3.0/24"])) (Some "2025-12-31T23:59:59Z"))
      = Some e) /\
  (Some "2025-12-31T23:59:59Z" = None ->
   expires_on (Sample.body (Some (Ranges ["1.2.3.0/24"])) (Some "2025-12-31T23:59:59Z"))
   = None).
Proof.
  apply (C8_dates_of_the_request Sample.bare Sample.world "Generated Token"
           ["zone:Zone Read"] (Some "2025-12-31T23:59:59Z") true "actions").
  vm_compute. reflexivity.
Defined.

(* ===================================================================== *)
(** * Further properties: the local mapping                                *)
(* ===================================================================== *)

Section LocalMapping.

Implicit Types (s word : string) (words : list string) (a : ascii).

Lemma upper_not_space a : JS.is_upper a = true -> JS.is_space a = false.
Proof.
  unfold JS.is_upper, JS.is_space. generalize (nat_of_ascii a). intros n H.
  apply andb_true_iff in H as [H1 H2].
  apply Nat.leb_le in H1. apply Nat.leb_le in H2.
  rewrite !orb_false_iff, andb_false_iff, !Nat.leb_gt, !Nat.eqb_neq. lia.
Qed.

Lemma plainChar_spec a :
  plainChar a = true -> JS.is_upper a = false /\ JS.is_space a = false.
Proof.
  unfold plainChar. rewrite andb_true_iff, !negb_true_iff. tauto.
Qed.

(** White space is only cut at the end. *)
Lemma trimEnd_cons a s :
  JS.trimEnd s = s -> s <> EmptyString \/ JS.is_space a = false ->
  JS.trimEnd (String a s) = String a s.
Proof.
  intros Hs Ha. simpl. rewrite Hs. destruct s as [|b s].
  - destruct Ha as [Ha|Ha]; [congruence | now rewrite Ha].
  - reflexivity.
Qed.

Lemma trimEnd_app_plain s t :
  allPlain s = true -> JS.trimEnd t = t -> JS.trimEnd (s +:+ t) = s +:+ t.
Proof.
  intros Hs Ht. induction s as [|a s IH]; [exact Ht|].
  simpl in Hs. apply andb_true_iff in Hs as [Ha Hs].
  apply plainChar_spec in Ha as [_ Ha].
  change (String a s +:+ t) with (String a (s +:+ t)).
  apply trimEnd_cons; auto.
Qed.

Lemma trimEnd_word word t :
  capitalisedWord word = true -> JS.trimEnd t = t ->
  JS.trimEnd (word +:+ t) = word +:+ t.
Proof.
  destruct word as [|a rest]; [discriminate|]. simpl.
  intros H Ht. apply andb_true_iff in H as [Ha Hrest].
  change (String a rest +:+ t) with (String a (rest +:+ t)).
  apply trimEnd_cons; [now apply trimEnd_app_plain|].
  right. now apply upper_not_space.
Qed.

Lemma trimEnd_spacedWords words :
  Forall (fun word => capitalisedWord word = true) words ->
  JS.trimEnd (spacedWords words) = spacedWords words.
Proof.
  induction 1 as [|word words Hw _ IH]; [reflexivity|].
  cbn [spacedWords]. apply trimEnd_cons; [now apply trimEnd_word|].
  left. destruct word; [discriminate|]. discriminate.
Qed.

Lemma spaceCapitals_plain s t :
  allPlain s = true -> JS.spaceCapitals (s +:+ t) = s +:+ JS.spaceCapitals t.
Proof.
  induction s as [|a s IH]; [reflexivity|]. simpl.
  intros H. apply andb_true_iff in H as [Ha Hs].
  apply plainChar_spec in Ha as [Ha _]. rewrite Ha. now rewrite IH.
Qed.

Lemma spaceCapitals_words words :
  Forall (fun word => capitalisedWord word = true) words ->
  JS.spaceCapitals (concatWords words) = spacedWords words.
Proof.
  induction 1 as [|word words Hw _ IH]; [reflexivity|].
  destruct word as [|a rest]; [discriminate|]. simpl in Hw.
  apply andb_true_iff in Hw as [Ha Hrest].
  cbn [concatWords spacedWords].
  change (String a rest +:+ concatWords words)
    with (String a (rest +:+ concatWords words)).
  cbn [JS.spaceCapitals]. rewrite Ha.
  now rewrite spaceCapitals_plain, IH.
Qed.

(** The words written without spaces come back with one space between. *)
Lemma toSpacedName_words words :
  Forall (fun word => capitalisedWord word = true) words ->
  toSpacedName (concatWords words) = joinWords words.
Proof.
  intros H. unfold toSpacedName, JS.trim. rewrite (spaceCapitals_words _ H).
  destruct H as [|word words Hw H]; [reflexivity|].
  cbn [spacedWords joinWords JS.trimStart].
  replace (JS.is_space " ") with true by reflexivity.
  destruct word as [|a rest] eqn:E; [discriminate|]. rewrite <- E.
  assert (Hs : JS.trimStart (word +:+ spacedWords words)
               = word +:+ spacedWords words).
  { subst word. simpl in Hw. apply andb_true_iff in Hw as [Ha _].
    change (String a rest +:+ spacedWords words)
      with (String a (rest +:+ spacedWords words)).
    cbn [JS.trimStart]. now rewrite (upper_not_space _ Ha). }
  rewrite Hs. apply trimEnd_word; [now subst word|].
  now apply trimEnd_spacedWords.
Qed.

Lemma prefix_app s t : String.prefix s (s +:+ t) = true.
Proof.
  induction s as [|a s IH]; [now destruct t|]. simpl.
  destruct (ascii_dec a a); [exact IH | congruence].
Qed.

Lemma drop_app s t : JS.drop (String.length s) (s +:+ t) = t.
Proof. induction s as [|a s IH]; [now destruct t | exact IH]. Qed.

Lemma removeFirst_unfold pat s :
  JS.removeFirst pat s =
  if String.prefix pat s then JS.drop (String.length pat) s
  else match s with
       | EmptyString => EmptyString
       | String a s' => String a (JS.removeFirst pat s')
       end.
Proof. now destruct s. Qed.

(** A pattern at the head of the string is the one that is removed. *)
Lemma removeFirst_prefix pat s : JS.removeFirst pat (pat +:+ s) = s.
Proof. now rewrite removeFirst_unfold, prefix_app, drop_app. Qed.

Lemma getPermissionGroupIds_fold cfg :
  getPermissionGroupIds cfg = foldl addPermission ∅ (env cfg).
Proof. reflexivity. Qed.

(** An assignment to [__proto__] leaves the own properties as they are. *)
Lemma addPermission_lookup permissions kv k :
  addPermission permissions kv !! k =
  if JS.startsWith (fst kv) "PERMISSION_"
     && String.eqb (permissionKeyOf (fst kv)) k
     && negb (String.eqb k "__proto__")
  then Some (snd kv) else permissions !! k.
Proof.
  unfold addPermission, JS.setMember.
  destruct (JS.startsWith _ _); [|reflexivity]. simpl.
  destruct (String.eqb_spec (permissionKeyOf (fst kv)) k) as [->|Hne]; simpl.
  - destruct (String.eqb k "__proto__"); [reflexivity | apply lookup_insert_eq].
  - destruct (String.eqb _ "__proto__"); [reflexivity | now apply lookup_insert_ne].
Qed.

(** A name made of capitalised words is not [__proto__]. *)
Lemma joinWords_not_proto words :
  Forall (fun word => capitalisedWord word = true) words ->
  joinWords words <> "__proto__".
Proof.
  intros [|word words' Hw _]; [discriminate|].
  destruct word as [|a rest]; [discriminate|].
  simpl in Hw. apply andb_true_iff in Hw as [Ha _].
  simpl. intros H. injection H as -> _. discriminate.
Qed.

End LocalMapping.

Section LocalMappingLookup.

Implicit Types (l pre post : list (string * string)) (m : gmap string string).

(** Variables that do not file under [k] leave the entry of [k] as it is. *)
Lemma foldl_addPermission_others m post k :
  Forall (fun kv => JS.startsWith (fst kv) "PERMISSION_" = true ->
                    permissionKeyOf (fst kv) <> k) post ->
  foldl addPermission m post !! k = m !! k.
Proof.
  intros H. revert m. induction H as [|kv post Hkv _ IH]; intros m; [reflexivity|].
  simpl. rewrite IH, addPermission_lookup.
  destruct (JS.startsWith (fst kv) "PERMISSION_"); [|reflexivity]. simpl.
  destruct (String.eqb_spec (permissionKeyOf (fst kv)) k); [|reflexivity].
  now destruct Hkv.
Qed.

(** Nothing is ever filed under [__proto__]. *)
Lemma foldl_addPermission_proto m post :
  foldl addPermission m post !! "__proto__" = m !! "__proto__".
Proof.
  revert m. induction post as [|kv post IH]; intros m; [reflexivity|].
  simpl. rewrite IH, addPermission_lookup. simpl.
  now rewrite andb_false_r.
Qed.

Lemma foldl_addPermission_last pre key v post m :
  JS.startsWith key "PERMISSION_" = true ->
  permissionKeyOf key <> "__proto__" ->
  Forall (fun kv => JS.startsWith (fst kv) "PERMISSION_" = true ->
                    permissionKeyOf (fst kv) <> permissionKeyOf key) post ->
  foldl addPermission m (pre ++ (key, v) :: post) !! permissionKeyOf key = Some v.
Proof.
  intros Hk Hp Hpost. rewrite foldl_app. simpl.
  rewrite (foldl_addPermission_others _ _ _ Hpost), addPermission_lookup. simpl.
  rewrite Hk, String.eqb_refl. simpl.
  now destruct (String.eqb_spec (permissionKeyOf key) "__proto__").
Qed.

Lemma foldl_addPermission_source l k v :
  foldl addPermission ∅ l !! k = Some v ->
  k <> "__proto__" /\
  exists pre key post,
    l = pre ++ (key, v) :: post /\
    JS.startsWith key "PERMISSION_" = true /\ permissionKeyOf key = k /\
    Forall (fun kv => JS.startsWith (fst kv) "PERMISSION_" = true ->
                      permissionKeyOf (fst kv) <> k) post.
Proof.
  intros Hl. split.
  { intros ->. rewrite foldl_addPermission_proto in Hl. discriminate. }
  revert Hl.
  induction l as [|[key' v'] l IH] using rev_ind; [discriminate|].
  rewrite foldl_snoc, addPermission_lookup. simpl.
  destruct (JS.startsWith key' "PERMISSION_") eqn:Hs; simpl.
  - destruct (String.eqb_spec (permissionKeyOf key') k) as [Hk|Hk]; simpl.
    + destruct (String.eqb k "__proto__") eqn:Hp; simpl.
      * intros H. exfalso. apply String.eqb_eq in Hp. rewrite Hp in H.
        rewrite foldl_addPermission_proto in H. discriminate.
      * intros H. injection H as ->. exists l, key', []. now repeat split.
    + intros H. destruct (IH H) as (pre & key & post & -> & H1 & H2 & H3).
      exists pre, key, (post ++ [(key', v')]). rewrite <- app_assoc.
      repeat split; auto. apply Forall_app. split; [exact H3|].
      constructor; [|constructor]. now intros _.
  - intros H. destruct (IH H) as (pre & key & post & -> & H1 & H2 & H3).
    exists pre, key, (post ++ [(key', v')]). rewrite <- app_assoc.
    repeat split; auto. apply Forall_app. split; [exact H3|].
    constructor; [|constructor]. simpl. congruence.
Qed.

End LocalMappingLookup.

Section GluedCapitals.

Implicit Types (s : string) (a : ascii).

Lemma spaceCapitals_head s : startsWithCapital (JS.spaceCapitals s) = false.
Proof.
  destruct s as [|a s]; [reflexivity|]. simpl.
  destruct (JS.is_upper a) eqn:Ha; [reflexivity | exact Ha].
Qed.

Lemma gluedCapital_cons a s :
  gluedCapital (String a s) =
  (negb (Ascii.eqb a " ") && startsWithCapital s) || gluedCapital s.
Proof.
  destruct s as [|b s]; [|reflexivity]. simpl. now rewrite andb_false_r.
Qed.

(** After [replace(/([A-Z])/g, ' $1')] a capital only stands at the head of
    the string or after a space. *)
Lemma spaceCapitals_not_glued s : gluedCapital (JS.spaceCapitals s) = false.
Proof.
  induction s as [|a s IH]; [reflexivity|]. cbn [JS.spaceCapitals].
  destruct (JS.is_upper a) eqn:Ha.
  - rewrite gluedCapital_cons, gluedCapital_cons, spaceCapitals_head, IH.
    simpl. now rewrite andb_false_r.
  - now rewrite gluedCapital_cons, spaceCapitals_head, IH, andb_false_r.
Qed.

Lemma trimStart_not_glued s :
  gluedCapital s = false -> gluedCapital (JS.trimStart s) = false.
Proof.
  induction s as [|a s IH]; [reflexivity|]. intros H. cbn [JS.trimStart].
  destruct (JS.is_space a); [|exact H].
  apply IH. rewrite gluedCapital_cons in H.
  now apply orb_false_iff in H as [_ H].
Qed.

Lemma trimEnd_head s :
  startsWithCapital s = false -> startsWithCapital (JS.trimEnd s) = false.
Proof.
  destruct s as [|a s]; [reflexivity|]. simpl. intros Ha.
  destruct (JS.trimEnd s); [|exact Ha].
  destruct (JS.is_space a); [reflexivity | exact Ha].
Qed.

Lemma trimEnd_not_glued s :
  gluedCapital s = false -> gluedCapital (JS.trimEnd s) = false.
Proof.
  induction s as [|a s IH]; [reflexivity|]. intros H.
  rewrite gluedCapital_cons in H. apply orb_false_iff in H as [H1 H2].
  pose proof (IH H2) as IH'. cbn [JS.trimEnd].
  destruct (JS.trimEnd s) as [|b r] eqn:Hr.
  - now destruct (JS.is_space a).
  - rewrite (gluedCapital_cons a), IH', orb_false_r.
    apply andb_false_iff in H1 as [H1|H1]; [now rewrite H1|].
    pose proof (trimEnd_head _ H1) as Hh. rewrite Hr in Hh.
    now rewrite Hh, andb_false_r.
Qed.

Lemma permissionKeyOf_not_glued key : gluedCapital (permissionKeyOf key) = false.
Proof.
  unfold permissionKeyOf, JS.trim.
  apply trimEnd_not_glued, trimStart_not_glued, spaceCapitals_not_glued.
Qed.

End GluedCapitals.

(** ** The local mapping ([getPermissionGroupIds], [toSpacedName]) *)

(** X1: the local mapping gives a name the value of the last [PERMISSION_]
    variable of the environment that files under it, and holds nothing
    else: variables without the prefix are not read, and nothing is filed
    under the name [__proto__]. *)
Theorem local_mapping_is_last_variable cfg k v :
  (getPermissionGroupIds cfg !! k = Some v <->
   k <> "__proto__" /\
   exists pre key post,
     env cfg = pre ++ (key, v) :: post /\
     JS.startsWith key "PERMISSION_" = true /\
     permissionKeyOf key = k /\
     Forall (fun kv => JS.startsWith (fst kv) "PERMISSION_" = true ->
                       permissionKeyOf (fst kv) <> k) post) /\
  getPermissionGroupIds cfg !! "__proto__" = None /\
  JS.getMember (getPermissionGroupIds cfg) "__proto__" = JS.Inherited.
Proof.
  rewrite getPermissionGroupIds_fold. split; [split|].
  - apply foldl_addPermission_source.
  - intros (Hk & pre & key & post & -> & Hs & <- & Hpost).
    now apply foldl_addPermission_last.
  - assert (H : foldl addPermission ∅ (env cfg) !! "__proto__" = None)
      by apply foldl_addPermission_proto.
    split; [exact H|]. unfold JS.getMember. now rewrite H.
Qed.

(** X2: a permission name made of capitalised words is registered by the
    variable whose name is [PERMISSION_] followed by the words without the
    spaces: the mapping then gives the name the variable's value, unless a
    later variable files under the same name. *)
Theorem local_mapping_round_trip cfg words pre v post :
  Forall (fun word => capitalisedWord word = true) words ->
  env cfg = pre ++ ("PERMISSION_" +:+ concatWords words, v) :: post ->
  Forall (fun kv => JS.startsWith (fst kv) "PERMISSION_" = true ->
                    permissionKeyOf (fst kv) <> joinWords words) post ->
  toSpacedName (concatWords words) = joinWords words /\
  getPermissionGroupIds cfg !! joinWords words = Some v.
Proof.
  intros Hw He Hpost.
  pose proof (toSpacedName_words _ Hw) as Hname. split; [exact Hname|].
  assert (Hkey : permissionKeyOf ("PERMISSION_" +:+ concatWords words)
                 = joinWords words).
  { unfold permissionKeyOf. rewrite removeFirst_prefix. exact Hname. }
  rewrite getPermissionGroupIds_fold, He, <- Hkey.
  apply foldl_addPermission_last.
  - unfold JS.startsWith. apply prefix_app.
  - rewrite Hkey. now apply joinWords_not_proto.
  - now rewrite Hkey.
Qed.

Lemma local_mapping_round_trip_witness :
  toSpacedName (concatWords ["Account"; "Settings"; "Read"])
  = joinWords ["Account"; "Settings"; "Read"] /\
  getPermissionGroupIds Sample.account !! joinWords ["Account"; "Settings"; "Read"]
  = Some "abc123".
Proof.
  apply (local_mapping_round_trip Sample.account ["Account"; "Settings"; "Read"]
           [("HOME", "/root")] "abc123" []).
  - repeat constructor.
  - reflexivity.
  - constructor.
Defined.

(** X3: no name of the local mapping has a capital right after a character
    other than a space; so a permission name with such a capital, like the
    [N] of [DNS Read], is never found locally, whatever the environment
    holds: its descriptor asks the catalog, or, when the name is that of
    an inherited member, like [hasOwnProperty], makes the callback throw. *)
Theorem glued_capital_is_never_local cfg permission service permissionName :
  splitPermission permission = inr (service, permissionName) ->
  gluedCapital (JS.trim permissionName) = true ->
  getPermissionGroupIds cfg !! JS.trim permissionName = None /\
  startPermission cfg (getPermissionGroupIds cfg) permission
  = (if JS.inherited (JS.trim permissionName)
     then Thrown (TypeError (JS.trim permissionName))
     else Awaiting service (JS.trim permissionName)).
Proof.
  intros Hs Hg.
  assert (Hnone : getPermissionGroupIds cfg !! JS.trim permissionName = None).
  { destruct (getPermissionGroupIds cfg !! JS.trim permissionName) as [v|] eqn:Hl;
      [|reflexivity].
    rewrite getPermissionGroupIds_fold in Hl.
    apply foldl_addPermission_source in Hl as (_ & _ & key & _ & _ & _ & Hk & _).
    rewrite <- Hk, permissionKeyOf_not_glued in Hg. discriminate. }
  split; [exact Hnone|].
  destruct (JS.inherited (JS.trim permissionName)) eqn:Hi.
  - apply (startPermission_inherited cfg _ _ service permissionName);
      [exact Hs | now apply getMember_inherited].
  - apply startPermission_remote; [exact Hs|].
    right. now apply getMember_missing.
Qed.

Lemma glued_capital_is_never_local_witness :
  getPermissionGroupIds Sample.account !! JS.trim "DNS Read" = None /\
  startPermission Sample.account (getPermissionGroupIds Sample.account)
                  "zone:DNS Read"
  = (if JS.inherited (JS.trim "DNS Read")
     then Thrown (TypeError (JS.trim "DNS Read"))
     else Awaiting "zone" (JS.trim "DNS Read")).
Proof.
  apply (glued_capital_is_never_local Sample.account "zone:DNS Read" "zone"
           "DNS Read"); reflexivity.
Defined.

(* ===================================================================== *)
(** * Further properties: the policies                                     *)
(* ===================================================================== *)

Section Segments.

Implicit Types (s a b : string) (c : ascii).

(** A string that holds the separator has at least two pieces. *)
Lemma split_two_pieces c s :
  JS.has_char c s = true -> exists h h2 t, JS.split c s = h :: h2 :: t.
Proof.
  induction s as [|x s IH]; [discriminate|]. simpl.
  destruct (Ascii.eqb x c).
  - intros _. destruct (JS.split c s) as [|h t] eqn:Hs.
    + now destruct (split_not_nil c s).
    + eauto.
  - intros H. destruct (IH H) as (h & h2 & t & ->). eauto.
Qed.

(** The last piece of a string is the last piece of what follows one of
    its separators. *)
Lemma last_split_app c a b :
  last (JS.split c (a +:+ String c b)) = last (JS.split c b).
Proof.
  induction a as [|x a IH]; simpl.
  - rewrite Ascii.eqb_refl, last_cons.
    destruct (last (JS.split c b)) eqn:Hl; [reflexivity|].
    apply last_None in Hl. now destruct (split_not_nil c b).
  - destruct (Ascii.eqb x c).
    + rewrite last_cons, IH.
      destruct (last (JS.split c b)) eqn:Hl; [reflexivity|].
      apply last_None in Hl. now destruct (split_not_nil c b).
    + destruct (split_two_pieces c (a +:+ String c b)) as (h & h2 & t & Hs).
      { rewrite has_char_app. simpl. now rewrite Ascii.eqb_refl, orb_true_r. }
      rewrite Hs in IH |- *. now rewrite last_cons_cons, <- IH, last_cons_cons.
Qed.

Lemma lastSegment_app a b : lastSegment (a +:+ "." +:+ b) = lastSegment b.
Proof.
  unfold lastSegment, JS.pop.
  change (a +:+ "." +:+ b) with (a +:+ String "." b).
  now rewrite last_split_app.
Qed.

Lemma lastSegment_plain s : JS.has_char "." s = false -> lastSegment s = s.
Proof.
  intros H. unfold lastSegment, JS.pop. now rewrite split_no_sep.
Qed.

(** The account prefix does not change the last piece. *)
Lemma lastSegment_withAccount cfg s :
  lastSegment (withAccount cfg s) = lastSegment s.
Proof.
  rewrite withAccount_spec. destruct (JS.includes s (ACCOUNT_ID cfg));
    [reflexivity | apply lastSegment_app].
Qed.

Lemma includes_app a b : JS.includes (a +:+ b) a = true.
Proof. apply startsWith_includes. unfold JS.startsWith. apply prefix_app. Qed.

Lemma withAccount_includes cfg s :
  JS.includes (withAccount cfg s) (ACCOUNT_ID cfg) = true.
Proof.
  rewrite withAccount_spec.
  destruct (JS.includes s (ACCOUNT_ID cfg)) eqn:Hi; [exact Hi|].
  apply includes_app.
Qed.

End Segments.

Section Policies.

Variables (cfg : Config) (w : World).

(** The policies of the request that was sent are those of the
    descriptors, in input order. *)
Lemma createToken_policies name permissions expiration whitelistGitHubIPs
    githubIPBatch payload :
  postedPayload (trace (createToken cfg w name permissions expiration
                                    whitelistGitHubIPs githubIPBatch))
  = Some payload ->
  Forall2 (policyFor cfg) permissions (policies payload).
Proof.
  intros H. apply createToken_posted in H as (Hthrown & Hok & ->).
  apply settlePhase_ok in Hok as [Hok _].
  apply collect_in_order; [exact Hthrown | exact Hok].
Qed.

End Policies.

(** X4: the request that is sent has one policy for each descriptor, in
    input order; each has the effect [allow], one permission group whose
    [meta] names the service of its descriptor, as it was typed, and one
    resource, with the value ["*"]. *)
Theorem policies_follow_the_descriptors cfg w name permissions expiration
    whitelistGitHubIPs githubIPBatch payload :
  postedPayload (trace (createToken cfg w name permissions expiration
                                    whitelistGitHubIPs githubIPBatch))
  = Some payload ->
  length (policies payload) = length permissions /\
  Forall2 (fun permission p =>
             exists service permissionName id key,
               splitPermission permission = inr (service, permissionName) /\
               p = {| effect := "allow";
                      permission_groups :=
                        [ {| pg_id := id; pg_meta_key := "service";
                             pg_meta_value := service |} ];
                      resources := {[ key := "*" ]} |})
          permissions (policies payload).
Proof.
  intros H. apply createToken_policies in H.
  split; [symmetry; eapply Forall2_length; exact H|].
  eapply Forall2_impl; [exact H|].
  intros permission p (service & permissionName & resource & Hs & ->).
  now exists service, permissionName,
         (default "" (JS.pop (JS.split "." (withAccount cfg resource)))),
         (withAccount cfg resource).
Qed.

Lemma policies_follow_the_descriptors_witness :
  length (policies (Sample.body (Some (Ranges ["1.2.3.0/24"])) None))
  = length ["zone:Zone Read"] /\
  Forall2 (fun permission p =>
             exists service permissionName id key,
               splitPermission permission = inr (service, permissionName) /\
               p = {| effect := "allow";
                      permission_groups :=
                        [ {| pg_id := id; pg_meta_key := "service";
                             pg_meta_value := service |} ];
                      resources := {[ key := "*" ]} |})
          ["zone:Zone Read"] (policies (Sample.body (Some (Ranges ["1.2.3.0/24"])) None)).
Proof.
  apply (policies_follow_the_descriptors Sample.bare Sample.world
           "Generated Token" ["zone:Zone Read"] None true "actions").
  vm_compute. reflexivity.
Defined.

(** X5: every resource key of the request that is sent holds the account
    identifier; putting the account in front a second time changes
    nothing. *)
Theorem resource_keys_hold_the_account cfg w name permissions expiration
    whitelistGitHubIPs githubIPBatch payload :
  postedPayload (trace (createToken cfg w name permissions expiration
                                    whitelistGitHubIPs githubIPBatch))
  = Some payload ->
  Forall (fun p => exists key,
              resources p = {[ key := "*" ]} /\
              JS.includes key (ACCOUNT_ID cfg) = true /\
              withAccount cfg key = key)
         (policies payload).
Proof.
  intros H. apply createToken_policies in H.
  eapply Forall2_Forall_r; [exact H|].
  apply Forall_forall. intros permission _ p (service & pn & resource & _ & ->).
  exists (withAccount cfg resource). split; [reflexivity|].
  pose proof (withAccount_includes cfg resource) as Hi. split; [exact Hi|].
  now rewrite (withAccount_spec cfg (withAccount cfg resource)), Hi.
Qed.

Lemma resource_keys_hold_the_account_witness :
  Forall (fun p => exists key,
              resources p = {[ key := "*" ]} /\
              JS.includes key (ACCOUNT_ID Sample.bare) = true /\
              withAccount Sample.bare key = key)
         (policies (Sample.body (Some (Ranges ["1.2.3.0/24"])) None)).
Proof.
  apply (resource_keys_hold_the_account Sample.bare Sample.world
           "Generated Token" ["zone:Zone Read"] None true "actions").
  vm_compute. reflexivity.
Defined.

(** X6: the id of the permission group is the last dot-separated piece of
    the resource as it was before the account was put in front: of the
    local value, or of the id the catalog gave; an id without a dot is
    passed on as it is, and neither the service nor the account ever gets
    into it. *)
Theorem group_id_is_the_last_piece cfg service :
  (forall resource,
      permission_groups (policyOf cfg service resource)
      = [ {| pg_id := lastSegment resource; pg_meta_key := "service";
             pg_meta_value := service |} ]) /\
  (forall groupId,
      permission_groups (resumePermission cfg service groupId)
      = [ {| pg_id := lastSegment groupId; pg_meta_key := "service";
             pg_meta_value := service |} ]) /\
  (forall groupId,
      JS.has_char "." groupId = false ->
      permission_groups (resumePermission cfg service groupId)
      = [ {| pg_id := groupId; pg_meta_key := "service";
             pg_meta_value := service |} ] /\
      permission_groups (policyOf cfg service groupId)
      = [ {| pg_id := groupId; pg_meta_key := "service";
             pg_meta_value := service |} ]).
Proof.
  assert (H1 : forall resource,
             permission_groups (policyOf cfg service resource)
             = [ {| pg_id := lastSegment resource; pg_meta_key := "service";
                    pg_meta_value := service |} ]).
  { intros resource. unfold policyOf. cbn [permission_groups].
    fold (lastSegment (withAccount cfg resource)).
    now rewrite lastSegment_withAccount. }
  assert (H2 : forall groupId,
             permission_groups (resumePermission cfg service groupId)
             = [ {| pg_id := lastSegment groupId; pg_meta_key := "service";
                    pg_meta_value := service |} ]).
  { intros groupId. unfold resumePermission. now rewrite H1, lastSegment_app. }
  split; [exact H1|]. split; [exact H2|].
  intros groupId Hd. now rewrite H1, H2, (lastSegment_plain _ Hd).
Qed.

Lemma group_id_is_the_last_piece_witness :
  permission_groups (resumePermission Sample.bare "zone" "zr1")
  = [ {| pg_id := "zr1"; pg_meta_key := "service"; pg_meta_value := "zone" |} ] /\
  permission_groups (policyOf Sample.bare "zone" "zr1")
  = [ {| pg_id := "zr1"; pg_meta_key := "service"; pg_meta_value := "zone" |} ].
Proof.
  apply (group_id_is_the_last_piece Sample.bare "zone"). reflexivity.
Defined.

(* ===================================================================== *)
(** * Further properties: the run as a whole                               *)
(* ===================================================================== *)

Section WholeRun.

Variables (cfg : Config) (w : World).

Lemma fetchTrace_requests n t :
  fetchTrace n t ->
  Forall (fun e => e = Issued GetMeta \/ e = Settled GetMeta \/ e = Sleep 1000) t.
Proof.
  induction 1 as [|n t _ IH].
  - constructor; [now left|]. constructor; [right; now left|]. constructor.
  - simpl. constructor; [now left|]. constructor; [right; now left|].
    constructor; [right; now right|]. exact IH.
Qed.

Lemma fetchPhase_requests whitelistGitHubIPs githubIPBatch :
  Forall (fun e => e = Issued GetMeta \/ e = Settled GetMeta \/ e = Sleep 1000)
         (fetchPhase w whitelistGitHubIPs githubIPBatch).1.
Proof.
  unfold fetchPhase. destruct whitelistGitHubIPs; [|constructor].
  destruct (fetchGitHubIPs_trace w 0 githubIPBatch 3) as (n & _ & Ht).
  exact (fetchTrace_requests _ _ Ht).
Qed.

Lemma issuedBy_requests callbacks :
  Forall (fun e => exists permissionName,
              e = Issued (GetPermissionGroups permissionName))
         (issuedBy callbacks).
Proof.
  unfold issuedBy. apply Forall_fmap, Forall_forall. intros sp _. simpl. eauto.
Qed.

(** Before the POST nothing is saved and the process has not ended. *)
Lemma before_the_post whitelistGitHubIPs githubIPBatch callbacks :
  let t := (fetchPhase w whitelistGitHubIPs githubIPBatch).1 ++
           issuedBy callbacks ++ (settlePhase w callbacks).1 in
  count is_save t = 0%nat /\ count is_exit t = 0%nat /\
  count is_post_issue t = 0%nat.
Proof.
  assert (H : Forall (fun e => is_save e = false /\ is_exit e = false /\
                               is_post_issue e = false)
                ((fetchPhase w whitelistGitHubIPs githubIPBatch).1 ++
                 issuedBy callbacks ++ (settlePhase w callbacks).1)).
  { rewrite !Forall_app. repeat split.
    - eapply Forall_impl; [apply fetchPhase_requests|].
      intros e [-> | [-> | ->]]; now repeat split.
    - eapply Forall_impl; [apply issuedBy_requests|].
      intros e [n ->]; now repeat split.
    - eapply Forall_impl; [apply settle_events|].
      intros e [c ->]; now repeat split. }
  cbv zeta. repeat split; apply count_none;
    (eapply Forall_impl; [exact H|]); intros e (H1 & H2 & H3); assumption.
Qed.

(** No callback threw exactly when no descriptor is malformed and none
    names an inherited member. *)
Lemma firstThrown_None_iff permissions :
  firstThrown (callbacksOf cfg permissions) = None <->
  Forall (fun d => ~ malformed d /\ ~ hitsPrototype cfg d) permissions.
Proof.
  split.
  - intros H. apply Forall_forall. intros d Hin.
    split; intros Hx; apply (proj2 (firstThrown_iff cfg permissions));
      [exists d; tauto | exact H | exists d; tauto | exact H].
  - intros H. destruct (firstThrown (callbacksOf cfg permissions)) as [e|] eqn:He;
      [|reflexivity].
    assert (Hne : firstThrown (callbacksOf cfg permissions) <> None) by congruence.
    apply firstThrown_iff in Hne as (d & Hin & Hd).
    rewrite Forall_forall in H. destruct (H d Hin). tauto.
Qed.

(** No catalog request failed exactly when every one of them succeeds,
    whatever the order of the answers. *)
Lemma settlePhase_iff callbacks :
  (settlePhase w callbacks).2 = None <->
  forall i service permissionName,
    pendingOf callbacks !! i = Some (service, permissionName) ->
    exists groupId,
      getPermissionGroupId (catalog w i) permissionName = inr groupId.
Proof.
  split; [apply settlePhase_ok|].
  intros H. destruct (settlePhase w callbacks).2 as [e|] eqn:He; [|reflexivity].
  apply settlePhase_failed in He as (i & s & n & Hp & Hg).
  destruct (H _ _ _ Hp) as [g Hg']. congruence.
Qed.

Lemma run_posts_iff name permissions expiration whitelistGitHubIPs githubIPBatch :
  is_Some (postedPayload (trace (createToken cfg w name permissions expiration
                                             whitelistGitHubIPs githubIPBatch)))
  <-> firstThrown (callbacksOf cfg permissions) = None /\
      (settlePhase w (callbacksOf cfg permissions)).2 = None.
Proof.
  split.
  - intros [p Hp]. now apply createToken_posted in Hp as (H1 & H2 & _).
  - intros [H1 H2].
    destruct (createToken_shape cfg w name permissions expiration
                whitelistGitHubIPs githubIPBatch)
      as [(e & He & _)|[(_ & e & He & _)|(_ & _ & Ht & _)]]; try congruence.
    destruct (before_the_post whitelistGitHubIPs githubIPBatch
                (callbacksOf cfg permissions)) as (_ & _ & Hc).
    rewrite Ht, !app_assoc, postedPayload_skip.
    + destruct (submit_facts w (buildPayload w name
                 (collect cfg w 0 (callbacksOf cfg permissions)) expiration
                 whitelistGitHubIPs
                 (fetchPhase w whitelistGitHubIPs githubIPBatch).2)) as (-> & _).
      eauto.
    + now rewrite <- !app_assoc.
Qed.

Lemma submit_endings payload :
  match outcome (submit w payload) with
  | inr result =>
      post w payload = PostOk result /\
      last (trace (submit w payload))
      = Some (SaveFile "cf-token.txt" (token_value result)) /\
      count is_save (trace (submit w payload)) = 1%nat /\
      count is_exit (trace (submit w payload)) = 0%nat
  | inl _ =>
      last (trace (submit w payload)) = Some (Exit 1) /\
      count is_exit (trace (submit w payload)) = 1%nat /\
      count is_save (trace (submit w payload)) = 0%nat
  end.
Proof. unfold submit. destruct (post w payload); simpl; now repeat split. Qed.

(** How a run ends. *)
Lemma createToken_endings name permissions expiration
    whitelistGitHubIPs githubIPBatch :
  let r := createToken cfg w name permissions expiration
                       whitelistGitHubIPs githubIPBatch in
  match outcome r with
  | inr result =>
      (exists payload,
          postedPayload (trace r) = Some payload /\
          post w payload = PostOk result) /\
      last (trace r) = Some (SaveFile "cf-token.txt" (token_value result)) /\
      count is_save (trace r) = 1%nat /\ count is_exit (trace r) = 0%nat
  | inl _ =>
      last (trace r) = Some (Exit 1) /\
      count is_exit (trace r) = 1%nat /\ count is_save (trace r) = 0%nat
  end.
Proof.
  cbv zeta.
  destruct (before_the_post whitelistGitHubIPs githubIPBatch
              (callbacksOf cfg permissions)) as (Hs & He & Hc).
  rewrite !count_app in Hs, He.
  destruct (createToken_shape cfg w name permissions expiration
              whitelistGitHubIPs githubIPBatch)
    as [(e & Hthrown & Ht & Ho)|[(_ & e & Hf & Ht & Ho)|(_ & _ & Ht & Ho)]];
    rewrite Ho, Ht.
  - split; [now rewrite !app_assoc, last_snoc|].
    rewrite !count_app.
    change (count is_exit [Exit 1]) with 1%nat.
    change (count is_save [Exit 1]) with 0%nat. lia.
  - split; [now rewrite !app_assoc, last_snoc|].
    rewrite !count_app.
    change (count is_exit [Exit 1]) with 1%nat.
    change (count is_save [Exit 1]) with 0%nat. lia.
  - pose proof (submit_endings (buildPayload w name
                  (collect cfg w 0 (callbacksOf cfg permissions)) expiration
                  whitelistGitHubIPs
                  (fetchPhase w whitelistGitHubIPs githubIPBatch).2)) as Hsub.
    destruct (submit_facts w (buildPayload w name
                  (collect cfg w 0 (callbacksOf cfg permissions)) expiration
                  whitelistGitHubIPs
                  (fetchPhase w whitelistGitHubIPs githubIPBatch).2))
      as (Hposted & _).
    assert (Hpp : postedPayload
                    ((fetchPhase w whitelistGitHubIPs githubIPBatch).1 ++
                     issuedBy (callbacksOf cfg permissions) ++
                     (settlePhase w (callbacksOf cfg permissions)).1 ++
                     trace (submit w (buildPayload w name
                       (collect cfg w 0 (callbacksOf cfg permissions)) expiration
                       whitelistGitHubIPs
                       (fetchPhase w whitelistGitHubIPs githubIPBatch).2)))
                  = Some (buildPayload w name
                       (collect cfg w 0 (callbacksOf cfg permissions)) expiration
                       whitelistGitHubIPs
                       (fetchPhase w whitelistGitHubIPs githubIPBatch).2)).
    { rewrite !app_assoc, postedPayload_skip; [exact Hposted|].
      now rewrite <- !app_assoc. }
    rewrite Hpp. clear Hpp Hposted.
    revert Hsub. generalize (submit w (buildPayload w name
                  (collect cfg w 0 (callbacksOf cfg permissions)) expiration
                  whitelistGitHubIPs
                  (fetchPhase w whitelistGitHubIPs githubIPBatch).2)).
    intros sub Hsub. rewrite !last_app, !count_app.
    destruct (outcome sub) as [e|result].
    + destruct Hsub as (-> & -> & ->). split; [reflexivity|]. lia.
    + destruct Hsub as (Hpost & -> & -> & ->).
      split; [eauto|]. split; [reflexivity|]. lia.
Qed.

End WholeRun.

(** X7: a run that succeeds ends by writing the [value] of the provider's
    answer to the request it sent to [cf-token.txt], once, and does not
    call [process.exit]; a run that fails ends by [process.exit(1)], once,
    and writes nothing. *)
Theorem run_ends_by_save_or_exit cfg w name permissions expiration
    whitelistGitHubIPs githubIPBatch :
  let r := createToken cfg w name permissions expiration
                       whitelistGitHubIPs githubIPBatch in
  match outcome r with
  | inr result =>
      (exists payload,
          postedPayload (trace r) = Some payload /\
          post w payload = PostOk result) /\
      last (trace r) = Some (SaveFile "cf-token.txt" (token_value result)) /\
      count is_save (trace r) = 1%nat /\ count is_exit (trace r) = 0%nat
  | inl _ =>
      last (trace r) = Some (Exit 1) /\
      count is_exit (trace r) = 1%nat /\ count is_save (trace r) = 0%nat
  end.
Proof.
  exact (createToken_endings cfg w name permissions expiration
           whitelistGitHubIPs githubIPBatch).
Qed.

(** X8: a run sends the token-creation POST at most once, and sends it
    exactly when no descriptor of the list is malformed, none names an
    inherited member, and every catalog request succeeds; the POST is
    then the last request of the run. *)
Theorem post_iff_all_resolved cfg w name permissions expiration
    whitelistGitHubIPs githubIPBatch :
  let r := createToken cfg w name permissions expiration
                       whitelistGitHubIPs githubIPBatch in
  (count is_post_issue (trace r) <= 1)%nat /\
  (count is_post_issue (trace r) = 1%nat <-> is_Some (postedPayload (trace r))) /\
  (is_Some (postedPayload (trace r)) <->
   Forall (fun d => ~ malformed d /\ ~ hitsPrototype cfg d) permissions /\
   forall i service permissionName,
     pendingOf (callbacksOf cfg permissions) !! i = Some (service, permissionName) ->
     exists groupId,
       getPermissionGroupId (catalog w i) permissionName = inr groupId) /\
  (forall payload,
      postedPayload (trace r) = Some payload ->
      exists before final,
        trace r = before ++ [Issued (PostToken payload);
                             Settled (PostToken payload); final] /\
        count is_post_issue before = 0%nat /\ is_issue final = false).
Proof.
  cbv zeta.
  pose proof (run_posts_iff cfg w name permissions expiration
                whitelistGitHubIPs githubIPBatch) as Hiff.
  destruct (before_the_post w whitelistGitHubIPs githubIPBatch
              (callbacksOf cfg permissions)) as (_ & _ & Hc).
  assert (Hcount :
    count is_post_issue (trace (createToken cfg w name permissions expiration
                                  whitelistGitHubIPs githubIPBatch))
    = match postedPayload (trace (createToken cfg w name permissions expiration
                                    whitelistGitHubIPs githubIPBatch)) with
      | Some _ => 1%nat
      | None => 0%nat
      end).
  { destruct (createToken_shape cfg w name permissions expiration
                whitelistGitHubIPs githubIPBatch)
      as [(e & He & Ht & _)|[(_ & e & He & Ht & _)|(H1 & H2 & Ht & _)]].
    - destruct (createToken_aborted cfg w name permissions expiration
                  whitelistGitHubIPs githubIPBatch) as (_ & -> & ->);
        [left; congruence | reflexivity].
    - destruct (createToken_aborted cfg w name permissions expiration
                  whitelistGitHubIPs githubIPBatch) as (_ & -> & ->);
        [right; congruence | reflexivity].
    - destruct (proj2 Hiff (conj H1 H2)) as [p Hp]. rewrite Hp, Ht.
      rewrite !count_app in Hc. rewrite !count_app.
      destruct (submit_facts w (buildPayload w name
                 (collect cfg w 0 (callbacksOf cfg permissions)) expiration
                 whitelistGitHubIPs
                 (fetchPhase w whitelistGitHubIPs githubIPBatch).2))
        as (_ & _ & -> & _). lia. }
  split; [|split; [|split]].
  - rewrite Hcount. destruct (postedPayload _); lia.
  - rewrite Hcount. destruct (postedPayload _); split; try discriminate; eauto.
    intros [x Hx]. discriminate.
  - rewrite Hiff, firstThrown_None_iff, settlePhase_iff. reflexivity.
  - intros payload Hp. pose proof Hp as Hp'.
    apply createToken_posted in Hp' as (H1 & H2 & Hpay).
    destruct (createToken_shape cfg w name permissions expiration
                whitelistGitHubIPs githubIPBatch)
      as [(e & He & _)|[(_ & e & He & _)|(_ & _ & Ht & _)]]; try congruence.
    rewrite <- Hpay in Ht. rewrite Ht, !app_assoc. eexists.
    unfold submit. destruct (post w payload); simpl trace; eexists;
      (split; [reflexivity|]); (split; [|reflexivity]);
      now rewrite <- !app_assoc.
Qed.

Section Arrival.

Variables (cfg : Config) (w : World) (arr : list nat).

Lemma fetchGitHubIPs_withArrival attempt batch retries :
  fetchGitHubIPs (withArrival w arr) attempt batch retries
  = fetchGitHubIPs w attempt batch retries.
Proof.
  revert attempt. induction retries as [|r IH]; intros attempt; simpl.
  - reflexivity.
  - now rewrite IH.
Qed.

Lemma fetchPhase_withArrival whitelistGitHubIPs githubIPBatch :
  fetchPhase (withArrival w arr) whitelistGitHubIPs githubIPBatch
  = fetchPhase w whitelistGitHubIPs githubIPBatch.
Proof.
  unfold fetchPhase. destruct whitelistGitHubIPs; [|reflexivity].
  apply fetchGitHubIPs_withArrival.
Qed.

Lemma collect_withArrival k callbacks :
  collect cfg (withArrival w arr) k callbacks = collect cfg w k callbacks.
Proof.
  revert k. induction callbacks as [|cb l IH]; intros k; [reflexivity|].
  destruct cb; simpl; rewrite ?IH; reflexivity.
Qed.

Lemma settlePhase_withArrival callbacks :
  (settlePhase (withArrival w arr) callbacks).2 = None <->
  (settlePhase w callbacks).2 = None.
Proof. rewrite !settlePhase_iff. reflexivity. Qed.

Lemma filter_issue_settled t :
  Forall (fun e => exists c, e = Settled c) t -> List.filter is_issue t = [].
Proof.
  induction 1 as [|e t [c ->] _ IH]; [reflexivity | exact IH].
Qed.

End Arrival.

(** X9: the catalog answers are handled in the order in which they
    arrive; that order changes neither whether a run succeeds, nor the
    requests it sends and their order, nor the body of the token request,
    nor the result of a run that succeeds. *)
Theorem arrival_order_does_not_matter cfg w arr name permissions expiration
    whitelistGitHubIPs githubIPBatch :
  let r := createToken cfg w name permissions expiration
                       whitelistGitHubIPs githubIPBatch in
  let r' := createToken cfg (withArrival w arr) name permissions expiration
                        whitelistGitHubIPs githubIPBatch in
  let pending := pendingOf (callbacksOf cfg permissions) in
  postedPayload (trace r') = postedPayload (trace r) /\
  List.filter is_issue (trace r') = List.filter is_issue (trace r) /\
  ((exists e, outcome r' = inl e) <-> (exists e, outcome r = inl e)) /\
  (forall result, outcome r' = inr result <-> outcome r = inr result) /\
  (arr ≡ₚ seq 0 (length pending) ->
   is_Some (postedPayload (trace r')) ->
   exists rest,
     trace r'
     = (fetchPhase w whitelistGitHubIPs githubIPBatch).1
         ++ issuedBy (callbacksOf cfg permissions)
         ++ omap (fun i => (fun sp => Settled (GetPermissionGroups sp.2))
                             <$> pending !! i) arr
         ++ rest).
Proof.
  cbv zeta.
  pose proof (settlePhase_withArrival w arr (callbacksOf cfg permissions)) as Hsp.
  pose proof (settle_events w (pendingOf (callbacksOf cfg permissions))
                (deliveryOrder (length (pendingOf (callbacksOf cfg permissions)))
                               (arrival w))) as Hs.
  pose proof (settle_events (withArrival w arr)
                (pendingOf (callbacksOf cfg permissions))
                (deliveryOrder (length (pendingOf (callbacksOf cfg permissions)))
                               (arrival (withArrival w arr)))) as Hs'.
  apply filter_issue_settled in Hs, Hs'.
  fold (settlePhase w (callbacksOf cfg permissions)) in Hs.
  fold (settlePhase (withArrival w arr) (callbacksOf cfg permissions)) in Hs'.
  assert (Hlast :
    arr ≡ₚ seq 0 (length (pendingOf (callbacksOf cfg permissions))) ->
    is_Some (postedPayload
               (trace (createToken cfg (withArrival w arr) name permissions
                                   expiration whitelistGitHubIPs githubIPBatch))) ->
    exists rest,
      trace (createToken cfg (withArrival w arr) name permissions expiration
                         whitelistGitHubIPs githubIPBatch)
      = (fetchPhase w whitelistGitHubIPs githubIPBatch).1
          ++ issuedBy (callbacksOf cfg permissions)
          ++ omap (fun i => (fun sp => Settled (GetPermissionGroups sp.2))
                              <$> pendingOf (callbacksOf cfg permissions) !! i) arr
          ++ rest).
  { intros Hperm Hposted.
    apply run_posts_iff in Hposted as [Hthrown Hok].
    destruct (createToken_shape cfg (withArrival w arr) name permissions expiration
                whitelistGitHubIPs githubIPBatch)
      as [(e' & He' & _)|[(_ & e' & He' & _)|(_ & _ & Ht' & _)]];
      try congruence.
    rewrite Ht', fetchPhase_withArrival. eexists. do 2 f_equal.
    f_equal. unfold settlePhase.
    change (arrival (withArrival w arr)) with arr.
    rewrite (deliveryOrder_honoured _ _ Hperm).
    apply settle_all_ok. intros i service permissionName _ Hp.
    apply settlePhase_ok in Hok as [Hok _]. exact (Hok i service permissionName Hp). }
  split; [|split; [|split; [|split; [|exact Hlast]]]]; clear Hlast;
  destruct (createToken_shape cfg w name permissions expiration
              whitelistGitHubIPs githubIPBatch)
    as [(e & He & Ht & Ho)|[(Hn & e & He & Ht & Ho)|(Hn & He & Ht & Ho)]];
  destruct (createToken_shape cfg (withArrival w arr) name permissions expiration
              whitelistGitHubIPs githubIPBatch)
    as [(e' & He' & Ht' & Ho')|[(Hn' & e' & He' & Ht' & Ho')|(Hn' & He' & Ht' & Ho')]];
    try congruence;
    try (apply Hsp in He'; congruence);
    try (apply Hsp in He; congruence);
    rewrite ?Ht, ?Ht', ?Ho, ?Ho', ?fetchPhase_withArrival, ?collect_withArrival;
    change (submit (withArrival w arr)) with (submit w);
    change (buildPayload (withArrival w arr)) with (buildPayload w);
    rewrite ?List.filter_app, ?Hs, ?Hs';
    try reflexivity;
    try (split; intros [x Hx]; eauto; discriminate);
    try (intros result; split; intros Hx; discriminate).
  all: destruct (before_the_post w whitelistGitHubIPs githubIPBatch
                   (callbacksOf cfg permissions)) as (_ & _ & Hc).
  all: destruct (before_the_post (withArrival w arr) whitelistGitHubIPs
                   githubIPBatch (callbacksOf cfg permissions)) as (_ & _ & Hc').
  all: rewrite fetchPhase_withArrival in Hc'.
  - assert (Hnone : forall t,
               count is_post_issue t = 0%nat ->
               postedPayload (t ++ [Exit 1]) = None).
    { intros t Hcount. apply postedPayload_none.
      rewrite count_app, Hcount. reflexivity. }
    now rewrite !app_assoc, !Hnone by (now rewrite <- !app_assoc).
  - now rewrite !app_assoc, !postedPayload_skip by (now rewrite <- !app_assoc).
Qed.

Lemma arrival_order_does_not_matter_witness :
  exists rest,
    trace (createToken Sample.bare (withArrival Sample.world [1%nat; 0%nat])
                       "Generated Token" ["zone:Zone Read"; "zone:Zone Write"]
                       None false "actions")
    = [ Issued (GetPermissionGroups "Zone Read");
        Issued (GetPermissionGroups "Zone Write");
        Settled (GetPermissionGroups "Zone Write");
        Settled (GetPermissionGroups "Zone Read") ] ++ rest.
Proof.
  apply (proj2 (proj2 (proj2 (proj2
           (arrival_order_does_not_matter Sample.bare Sample.world
              [1%nat; 0%nat] "Generated Token"
              ["zone:Zone Read"; "zone:Zone Write"] None false "actions"))))).
  - apply perm_swap.
  - vm_compute. eauto.
Defined.

(* ===================================================================== *)
(** * Further properties: the command line                                 *)
(* ===================================================================== *)

Section CommandLine.

Implicit Types (s : string) (c : ascii) (args : list ArgValue).

Lemma split_pieces_free c s :
  Forall (fun piece => JS.has_char c piece = false) (JS.split c s).
Proof.
  induction s as [|x s IH]; simpl.
  - now repeat constructor.
  - destruct (Ascii.eqb x c) eqn:Hx; [now constructor|].
    destruct (JS.split c s) as [|h t].
    + constructor; [|constructor]. simpl. now rewrite Hx.
    + inversion IH; subst. constructor; [|assumption].
      simpl. now rewrite Hx.
Qed.

Lemma length_split c s : length (JS.split c s) = S (occurrences c s).
Proof.
  induction s as [|x s IH]; [reflexivity|]. simpl.
  destruct (Ascii.eqb x c); [simpl; now rewrite IH|].
  destruct (JS.split c s); simpl in *; congruence.
Qed.

(** The handler throws exactly when the parser made a number of one of
    the arguments. *)
Lemma cliPermissions_None args :
  cliPermissions args = None <-> exists text, ArgNumber text ∈ args.
Proof.
  induction args as [|[p|text] args IH]; simpl.
  - split; [discriminate|]. intros [text H]. inversion H.
  - destruct (cliPermissions args) as [pieces|].
    + split; [discriminate|]. intros [text H].
      apply elem_of_cons in H as [H|H]; [discriminate|].
      assert (Hn : Some pieces = None) by (apply IH; eauto). discriminate.
    + split; [|reflexivity]. intros _.
      destruct (proj1 IH eq_refl) as [text H]. exists text. now right.
  - split; [|reflexivity]. intros _. exists text. now left.
Qed.

Lemma cliPermissions_pieces args permissions :
  cliPermissions args = Some permissions ->
  Forall (fun d => JS.has_char "," d = false) permissions /\
  length permissions
  = foldr (fun arg n => (S (occurrences "," (argText arg)) + n)%nat) 0%nat args /\
  forall p, ArgString p ∈ args ->
            forall piece, piece ∈ JS.split "," p -> piece ∈ permissions.
Proof.
  revert permissions. induction args as [|[p|text] args IH]; simpl;
    intros permissions H.
  - injection H as <-. repeat split; [constructor|].
    intros p Hp. inversion Hp.
  - destruct (cliPermissions args) as [pieces|]; [|discriminate].
    injection H as <-. destruct (IH pieces eq_refl) as (IH1 & IH2 & IH3).
    repeat split.
    + apply Forall_app. split; [apply split_pieces_free | exact IH1].
    + rewrite length_app, length_split, IH2. reflexivity.
    + intros q Hq piece Hpiece. apply elem_of_app.
      apply elem_of_cons in Hq as [Hq|Hq].
      * injection Hq as ->. now left.
      * right. now apply (IH3 q).
  - discriminate.
Qed.

(** An argument that is empty, or starts or ends with a comma, has an empty
    piece. *)
Lemma stray_comma_piece s :
  s = EmptyString \/ (exists rest, s = "," +:+ rest) \/
  (exists rest, s = rest +:+ ",") ->
  EmptyString ∈ JS.split "," s.
Proof.
  intros [->|[[rest ->]|[rest ->]]].
  - now left.
  - simpl. now left.
  - apply last_Some_elem_of.
    change (rest +:+ ",") with (rest +:+ String "," EmptyString).
    now rewrite last_split_app.
Qed.

Lemma empty_is_malformed : malformed EmptyString.
Proof. left. now split. Qed.

(** The default command, when its handler does not throw, is the build of
    the pieces of its arguments. *)
Lemma generateCommand_trace cfg w argv payload :
  postedPayload (invocationTrace (generateCommand cfg w argv)) = Some payload ->
  exists permissions,
    cliPermissions (argv_permissions argv) = Some permissions /\
    postedPayload
      (trace (createToken cfg w "Generated Token" permissions
                          (argv_valid_until argv)
                          (negb (argv_no_github_ips argv)) (argv_batch argv)))
    = Some payload.
Proof.
  unfold generateCommand.
  destruct (cliPermissions (argv_permissions argv)) as [permissions|];
    [|discriminate].
  intros H. now exists permissions.
Qed.

End CommandLine.

(** X10: the default command cuts every [--permissions] argument at its
    commas: no descriptor it hands to [createToken] holds a comma, and the
    request that is sent has one policy for each piece, that is one for
    each argument and one more for each comma. *)
Theorem cli_cuts_at_commas cfg w argv :
  Forall (fun d => JS.has_char "," d = false)
         (default [] (cliPermissions (argv_permissions argv))) /\
  forall payload,
    postedPayload (invocationTrace (generateCommand cfg w argv)) = Some payload ->
    name payload = "Generated Token" /\
    length (policies payload)
    = foldr (fun arg n => (S (occurrences "," (argText arg)) + n)%nat) 0%nat
            (argv_permissions argv) /\
    Forall (fun arg => exists p, arg = ArgString p) (argv_permissions argv).
Proof.
  split.
  - destruct (cliPermissions (argv_permissions argv)) as [permissions|] eqn:Hc;
      [|constructor].
    now apply cliPermissions_pieces in Hc as (H & _).
  - intros payload H.
    apply generateCommand_trace in H as (permissions & Hc & H).
    pose proof (createToken_policies _ _ _ _ _ _ _ _ H) as Hp.
    apply Forall2_length in Hp.
    destruct (cliPermissions_pieces _ _ Hc) as (_ & Hlen & _).
    split; [|split].
    + now apply createToken_posted in H as (_ & _ & ->).
    + now rewrite <- Hp, Hlen.
    + apply Forall_forall. intros [p|text] Hin; [eauto|].
      exfalso.
      assert (Hnone : cliPermissions (argv_permissions argv) = None)
        by (apply cliPermissions_None; eauto).
      congruence.
Qed.

Lemma cli_cuts_at_commas_witness :
  name (Sample.body None None) = "Generated Token" /\
  length (policies (Sample.body None None))
  = foldr (fun arg n => (S (occurrences "," (argText arg)) + n)%nat) 0%nat
          [ArgString "zone:Zone Read"] /\
  Forall (fun arg => exists p, arg = ArgString p) [ArgString "zone:Zone Read"].
Proof.
  apply (cli_cuts_at_commas Sample.bare Sample.world
           {| argv_permissions := [ArgString "zone:Zone Read"];
              argv_valid_until := None;
              argv_batch := "actions"; argv_no_github_ips := true |}).
  vm_compute. reflexivity.
Defined.

(** X11: a [--permissions] argument that is empty, or starts or ends with a
    comma, makes the default command fail without any token-creation POST
    and without writing the file.  When the parser made a number of one of
    the arguments the handler throws before any request; otherwise the
    build ends by [process.exit(1)] with the error of a piece whose
    callback threw: the [InvalidFormatError] of a malformed piece, or the
    [TypeError] of a piece that names an inherited member. *)
Theorem cli_stray_comma_aborts cfg w argv arg :
  ArgString arg ∈ argv_permissions argv ->
  arg = EmptyString \/ (exists rest, arg = "," +:+ rest) \/
  (exists rest, arg = rest +:+ ",") ->
  postedPayload (invocationTrace (generateCommand cfg w argv)) = None /\
  count is_save (invocationTrace (generateCommand cfg w argv)) = 0%nat /\
  (forall text,
      ArgNumber text ∈ argv_permissions argv ->
      generateCommand cfg w argv = HandlerThrew /\
      invocationTrace (generateCommand cfg w argv) = []) /\
  (forall permissions,
      cliPermissions (argv_permissions argv) = Some permissions ->
      exists r,
        generateCommand cfg w argv = Generated r /\
        last (trace r) = Some (Exit 1) /\
        exists bad,
          bad ∈ permissions /\
          ((malformed bad /\ outcome r = inl (InvalidFormatError bad)) \/
           (hitsPrototype cfg bad /\
            exists service permissionName,
              splitPermission bad = inr (service, permissionName) /\
              outcome r = inl (TypeError (JS.trim permissionName))))).
Proof.
  intros Hin Hstray. apply stray_comma_piece in Hstray.
  assert (Hnumber : forall text,
             ArgNumber text ∈ argv_permissions argv ->
             generateCommand cfg w argv = HandlerThrew).
  { intros text Ht. unfold generateCommand.
    assert (Hnone : cliPermissions (argv_permissions argv) = None)
      by (apply cliPermissions_None; eauto).
    now rewrite Hnone. }
  assert (Hstrings : forall permissions,
    cliPermissions (argv_permissions argv) = Some permissions ->
    exists r,
      generateCommand cfg w argv = Generated r /\
      (last (trace r) = Some (Exit 1) /\
       exists bad,
         bad ∈ permissions /\
         ((malformed bad /\ outcome r = inl (InvalidFormatError bad)) \/
          (hitsPrototype cfg bad /\
           exists service permissionName,
             splitPermission bad = inr (service, permissionName) /\
             outcome r = inl (TypeError (JS.trim permissionName))))) /\
      postedPayload (trace r) = None /\ count is_save (trace r) = 0%nat).
  { intros permissions Hc. unfold generateCommand. rewrite Hc.
    eexists. split; [reflexivity|].
    assert (Hempty : EmptyString ∈ permissions).
    { destruct (cliPermissions_pieces _ _ Hc) as (_ & _ & Hp).
      exact (Hp arg Hin _ Hstray). }
    pose proof (callbacks_malformed cfg _ _ Hempty empty_is_malformed) as Hthrown.
    destruct (createToken_aborted cfg w "Generated Token" permissions
                (argv_valid_until argv) (negb (argv_no_github_ips argv))
                (argv_batch argv) (or_introl Hthrown))
      as ((e & Ho & [He|[He _]]) & _ & Hpost); [|congruence].
    destruct (createToken_shape cfg w "Generated Token" permissions
                (argv_valid_until argv) (negb (argv_no_github_ips argv))
                (argv_batch argv))
      as [(e' & _ & Ht & _)|[(Hn & _)|(Hn & _)]]; [|congruence..].
    split; [split|split; [exact Hpost|]].
    - now rewrite Ht, !app_assoc, last_snoc.
    - destruct (callbacks_thrown cfg _ _ He)
        as (bad & Hb & [[Hm ->]|[Hh (s & n & Hs & ->)]]).
      + exists bad. split; [exact Hb|]. now left.
      + exists bad. split; [exact Hb|]. right. split; [exact Hh|].
        now exists s, n.
    - pose proof (createToken_endings cfg w "Generated Token" permissions
                    (argv_valid_until argv) (negb (argv_no_github_ips argv))
                    (argv_batch argv)) as Hx.
      cbv zeta in Hx. rewrite Ho in Hx. now destruct Hx as (_ & _ & Hx). }
  destruct (cliPermissions (argv_permissions argv)) as [permissions|] eqn:Hc.
  - destruct (Hstrings permissions eq_refl) as (r & Hr & Hfacts & Hpost & Hsave).
    rewrite Hr. cbn [invocationTrace].
    split; [exact Hpost|]. split; [exact Hsave|]. split.
    + intros text Ht. specialize (Hnumber text Ht). congruence.
    + intros permissions' Hp. injection Hp as <-. exists r. now split.
  - destruct (proj1 (cliPermissions_None _) Hc) as [text Ht].
    rewrite (Hnumber text Ht). cbn [invocationTrace].
    split; [reflexivity|]. split; [reflexivity|]. split.
    + intros text' _. now split.
    + intros permissions Hp. discriminate.
Qed.

Lemma cli_stray_comma_aborts_witness :
  postedPayload
    (invocationTrace
       (generateCommand Sample.bare Sample.world
          {| argv_permissions := [ArgString "zone:Zone Read,"];
             argv_valid_until := None; argv_batch := "actions";
             argv_no_github_ips := false |})) = None /\
  count is_save
    (invocationTrace
       (generateCommand Sample.bare Sample.world
          {| argv_permissions := [ArgString "zone:Zone Read,"];
             argv_valid_until := None; argv_batch := "actions";
             argv_no_github_ips := false |})) = 0%nat.
Proof.
  destruct (cli_stray_comma_aborts Sample.bare Sample.world
              {| argv_permissions := [ArgString "zone:Zone Read,"];
                 argv_valid_until := None; argv_batch := "actions";
                 argv_no_github_ips := false |} "zone:Zone Read,")
    as (H1 & H2 & _).
  - left.
  - right. right. now exists "zone:Zone Read".
  - split; [exact H1 | exact H2].
Defined.

Section Commands.

Variables (cfg : Config) (w : World).

Lemma deliveryOrder_one arr : deliveryOrder 1 arr = [0%nat].
Proof.
  pose proof (length_deliveryOrder 1 arr) as Hlen.
  pose proof (elem_of_deliveryOrder 1 arr) as Hin.
  destruct (deliveryOrder 1 arr) as [|i [|j l]]; try discriminate.
  assert (i < 1)%nat by (apply Hin; now left).
  f_equal. lia.
Qed.

(** The run of a single descriptor that has no local id. *)
Lemma createToken_single_remote permission service permissionName :
  splitPermission permission = inr (service, permissionName) ->
  getPermissionGroupIds cfg !! JS.trim permissionName = Some EmptyString \/
  JS.getMember (getPermissionGroupIds cfg) (JS.trim permissionName) = JS.Missing ->
  callbacksOf cfg [permission] = [Awaiting service (JS.trim permissionName)] /\
  (settlePhase w (callbacksOf cfg [permission])).2
  = match getPermissionGroupId (catalog w 0) (JS.trim permissionName) with
    | inl e => Some e
    | inr _ => None
    end.
Proof.
  intros Hs Hl.
  assert (Hc : callbacksOf cfg [permission]
               = [Awaiting service (JS.trim permissionName)]).
  { unfold callbacksOf. simpl. now rewrite (startPermission_remote _ _ _ _ _ Hs Hl). }
  split; [exact Hc|]. rewrite Hc. unfold settlePhase. simpl pendingOf.
  simpl length. rewrite deliveryOrder_one. simpl.
  now destruct (getPermissionGroupId (catalog w 0) (JS.trim permissionName)).
Qed.

End Commands.

(** X12: when [CLOUDFLARE_API_TOKEN] or [ACCOUNT_ID] is missing from the
    environment, or empty, the program ends by [process.exit(1)] before
    any request, whatever the command; and when the default command runs,
    both are set and every resource key of the request it sends holds the
    [ACCOUNT_ID] of the environment. *)
Theorem main_checks_the_configuration environment w cmd :
  (default "" (envGet "CLOUDFLARE_API_TOKEN" environment) = "" \/
   default "" (envGet "ACCOUNT_ID" environment) = "" ->
   main environment w cmd = MissingConfiguration /\
   invocationTrace (main environment w cmd) = [Exit 1]) /\
  (forall r,
      main environment w cmd = Generated r ->
      exists token account argv,
        cmd = Generate argv /\
        envGet "CLOUDFLARE_API_TOKEN" environment = Some token /\
        JS.truthy token = true /\
        envGet "ACCOUNT_ID" environment = Some account /\
        JS.truthy account = true /\
        generateCommand {| CLOUDFLARE_API_TOKEN := token;
                           ACCOUNT_ID := account;
                           env := environment |} w argv = Generated r /\
        forall payload,
          postedPayload (trace r) = Some payload ->
          Forall (fun p => exists key,
                      resources p = {[ key := "*" ]} /\
                      JS.includes key account = true)
                 (policies payload)).
Proof.
  unfold main. split.
  - intros H.
    assert (Hguard : negb (JS.truthy (default "" (envGet "CLOUDFLARE_API_TOKEN" environment)))
                     || negb (JS.truthy (default "" (envGet "ACCOUNT_ID" environment)))
                     = true).
    { destruct H as [-> | ->]; [reflexivity | apply orb_true_r]. }
    now rewrite Hguard.
  - intros r.
    destruct (envGet "CLOUDFLARE_API_TOKEN" environment) as [token|];
      [|discriminate].
    destruct (envGet "ACCOUNT_ID" environment) as [account|];
      [|simpl; rewrite orb_true_r; discriminate].
    simpl. destruct (JS.truthy token) eqn:Ht; [|discriminate].
    destruct (JS.truthy account) eqn:Ha; [|discriminate]. simpl.
    destruct cmd as [argv|n].
    + intros H. exists token, account, argv.
      repeat split; auto. intros payload Hp.
      unfold generateCommand in H.
      destruct (cliPermissions (argv_permissions argv)) as [permissions|];
        [|discriminate].
      injection H as <-. apply createToken_policies in Hp.
      eapply Forall2_Forall_r; [exact Hp|].
      apply Forall_forall. intros permission _ p (service & pn & resource & _ & ->).
      exists (withAccount {| CLOUDFLARE_API_TOKEN := token;
                             ACCOUNT_ID := account; env := environment |}
                          resource).
      split; [reflexivity|].
      exact (withAccount_includes {| CLOUDFLARE_API_TOKEN := token;
                                     ACCOUNT_ID := account;
                                     env := environment |} resource).
    + destruct (getPermissionIdCommand w n). discriminate.
Qed.

Lemma main_checks_the_configuration_witness :
  main [("CLOUDFLARE_API_TOKEN", "token"); ("ACCOUNT_ID", "")] Sample.world
       (GetPermissionId (ArgString "Zone Read")) = MissingConfiguration /\
  invocationTrace
    (main [("CLOUDFLARE_API_TOKEN", "token"); ("ACCOUNT_ID", "")] Sample.world
          (GetPermissionId (ArgString "Zone Read"))) = [Exit 1].
Proof.
  apply (main_checks_the_configuration
           [("CLOUDFLARE_API_TOKEN", "token"); ("ACCOUNT_ID", "")] Sample.world
           (GetPermissionId (ArgString "Zone Read"))).
  right. reflexivity.
Defined.

(** X13: for a descriptor whose name has an empty local id, or no member
    at all in the local mapping, [createToken] on this one descriptor and
    the command [get-permission-id] on its trimmed name agree: when the
    command fails, the build fails with the same error; when the command
    prints an id, the build sends a request whose only policy is made from
    the service and that id.  The command itself asks for the name as the
    parser hands it over, and a name the parser made a number of is never
    found. *)
Theorem build_and_command_agree cfg w name permission service permissionName
    expiration whitelistGitHubIPs githubIPBatch :
  splitPermission permission = inr (service, permissionName) ->
  getPermissionGroupIds cfg !! JS.trim permissionName = Some EmptyString \/
  JS.getMember (getPermissionGroupIds cfg) (JS.trim permissionName) = JS.Missing ->
  match (getPermissionIdCommand w (ArgString (JS.trim permissionName))).2 with
  | inl e =>
      outcome (createToken cfg w name [permission] expiration
                           whitelistGitHubIPs githubIPBatch) = inl e
  | inr permissionId =>
      exists payload,
        postedPayload (trace (createToken cfg w name [permission] expiration
                                          whitelistGitHubIPs githubIPBatch))
        = Some payload /\
        policies payload = [resumePermission cfg service permissionId]
  end /\
  (forall typed,
      List.filter is_issue (getPermissionIdCommand w typed).1
      = [Issued (GetPermissionGroups (argText typed))]) /\
  (forall text,
      (getPermissionIdCommand w (ArgNumber text)).2
      = inl (match catalog w 0 with
             | CatalogOk _ => PermissionNotFoundError text
             | CatalogRejected messages => RemoteLookupError messages
             | CatalogFail => RemoteLookupError []
             end)).
Proof.
  intros Hs Hl. split; [|split].
  - destruct (createToken_single_remote cfg w permission service
                permissionName Hs Hl) as [Hc Hsp].
    unfold getPermissionIdCommand, getPermissionGroupIdOf.
    destruct (getPermissionGroupId (catalog w 0) (JS.trim permissionName))
      as [e|g] eqn:Hg; simpl.
    + destruct (createToken_shape cfg w name [permission] expiration
                  whitelistGitHubIPs githubIPBatch)
        as [(e' & He & _)|[(_ & e' & He & _ & Ho)|(_ & He & _)]].
      * rewrite Hc in He. discriminate.
      * congruence.
      * congruence.
    + destruct (proj2 (run_posts_iff cfg w name [permission] expiration
                         whitelistGitHubIPs githubIPBatch)) as [payload Hp].
      { split; [now rewrite Hc | exact Hsp]. }
      exists payload. split; [exact Hp|].
      apply createToken_posted in Hp as (_ & _ & ->).
      rewrite Hc. simpl. now rewrite Hg.
  - intros typed. unfold getPermissionIdCommand.
    now destruct (getPermissionGroupIdOf (catalog w 0) typed).
  - intros text. unfold getPermissionIdCommand, getPermissionGroupIdOf.
    now destruct (catalog w 0).
Qed.

Lemma build_and_command_agree_witness :
  match (getPermissionIdCommand Sample.smallCatalog
           (ArgString (JS.trim "Zone Write"))).2 with
  | inl e =>
      outcome (createToken Sample.bare Sample.smallCatalog "Generated Token"
                           ["zone:Zone Write"] None false "actions") = inl e
  | inr permissionId =>
      exists payload,
        postedPayload (trace (createToken Sample.bare Sample.smallCatalog
                                          "Generated Token" ["zone:Zone Write"]
                                          None false "actions"))
        = Some payload /\
        policies payload = [resumePermission Sample.bare "zone" permissionId]
  end.
Proof.
  apply (build_and_command_agree Sample.bare Sample.smallCatalog
           "Generated Token" "zone:Zone Write" "zone" "Zone Write"
           None false "actions"); [reflexivity|].
  right. vm_compute. reflexivity.
Defined.

(** X14: when the catalog lists several groups under the name asked for,
    [getPermissionGroupId] returns the id of the first of them. *)
Theorem catalog_first_match_wins before permissionName groupId after :
  permissionName ∉ before.*1 ->
  getPermissionGroupId
    (CatalogOk (before ++ (permissionName, groupId) :: after)) permissionName
  = inr groupId.
Proof.
  intros H. simpl.
  induction before as [|[n g] before IH]; simpl.
  - now rewrite String.eqb_refl.
  - destruct (String.eqb_spec n permissionName) as [->|Hne].
    + exfalso. apply H. now left.
    + apply IH. intros Hin. apply H. now right.
Qed.

Lemma catalog_first_match_wins_witness :
  getPermissionGroupId
    (CatalogOk ([("Zone Read", "zr1")] ++ ("Zone Write", "zw1")
                  :: [("Zone Write", "zw2")])) "Zone Write"
  = inr "zw1".
Proof.
  apply (catalog_first_match_wins [("Zone Read", "zr1")] "Zone Write" "zw1"
           [("Zone Write", "zw2")]).
  intros H. apply list_elem_of_In in H. simpl in H.
  destruct H as [H|[]]. discriminate.
Defined.

(* ===================================================================== *)
(** * Further properties: the IP allow-list fetch                          *)
(* ===================================================================== *)



(* ===================================================================== *)
(** * Further properties: the first version of the program                 *)
(* ===================================================================== *)

(** X15: the first version sends one policy whatever the permissions are:
    it holds the permissions as they were typed and, for each of them in
    order, the resource that is the part of the permission before its
    first colon, or the whole permission when it has no colon. *)
Theorem first_version_resources w provider name permissions expiration
    whitelistGitHubIPs githubIPBatch :
  exists resources,
    IndexTs.policies
      (IndexTs.posted (IndexTs.createToken w provider name permissions expiration
                                           whitelistGitHubIPs githubIPBatch))
    = [ {| IndexTs.effect := "allow";
           IndexTs.permissions := permissions;
           IndexTs.resources := resources |} ] /\
    Forall2 (fun perm resource =>
               JS.has_char ":" resource = false /\
               (perm = resource \/ exists rest, perm = resource +:+ ":" +:+ rest))
            permissions resources.
Proof.
  unfold IndexTs.createToken.
  destruct (if whitelistGitHubIPs then _ else _) as [fetched githubIPs].
  eexists. split; [reflexivity|].
  apply Forall2_fmap_r, Forall_Forall2_diag, Forall_forall.
  intros perm _. unfold compose.
  destruct (JS.split ":" perm) as [|h t] eqn:Hs.
  - now destruct (split_not_nil _ _ Hs).
  - simpl. destruct (split_inv _ _ _ _ Hs) as [Hh [[_ ->]|(rest & -> & _)]].
    + split; [exact Hh | now left].
    + split; [exact Hh|]. right. now exists rest.
Qed.

(** X16: the first version sends a single GET to the registry, as the
    current [fetchGitHubIPs] does when it has no retry left, and the two
    return the same unless the answer takes more than five seconds, which
    the first version waits for and the current one does not; the request
    of the current version has the same expiry as that of the first, has
    an IP condition exactly when that of the first has one, and has the
    same IP condition when whitelisting is disabled or the registry
    answers the first GET in time. *)
Theorem versions_agree_on_the_condition cfg w provider name permissions
    expiration whitelistGitHubIPs githubIPBatch :
  let first := IndexTs.createToken w provider name permissions expiration
                                   whitelistGitHubIPs githubIPBatch in
  count is_meta_issue (IndexTs.fetchGitHubIPs w githubIPBatch).1 = 1%nat /\
  ((forall data, meta w 0 <> MetaSlow data) ->
   IndexTs.fetchGitHubIPs w githubIPBatch = fetchGitHubIPs w 0 githubIPBatch 0) /\
  (forall data,
      meta w 0 = MetaSlow data ->
      IndexTs.fetchGitHubIPs w githubIPBatch
      = ([Issued GetMeta; Settled GetMeta], pickBatch data githubIPBatch) /\
      fetchGitHubIPs w 0 githubIPBatch 0
      = ([Issued GetMeta; Settled GetMeta], Ranges [])) /\
  (forall payload,
      postedPayload (trace (createToken cfg w name permissions expiration
                                        whitelistGitHubIPs githubIPBatch))
      = Some payload ->
      expires_on payload = IndexTs.expires_on (IndexTs.posted first) /\
      (is_Some (condition payload)
       <-> is_Some (IndexTs.condition (IndexTs.posted first))) /\
      (whitelistGitHubIPs = false \/ (exists data, meta w 0 = MetaData data) ->
       condition payload = IndexTs.condition (IndexTs.posted first))).
Proof.
  cbv zeta. split; [|split; [|split]].
  - unfold IndexTs.fetchGitHubIPs. now destruct (meta w 0).
  - intros Hslow. unfold IndexTs.fetchGitHubIPs. cbn [fetchGitHubIPs].
    destruct (meta w 0) as [|data|data]; try reflexivity.
    now destruct (Hslow data).
  - intros data Hm. unfold IndexTs.fetchGitHubIPs. cbn [fetchGitHubIPs].
    now rewrite Hm.
  - intros payload H. apply createToken_posted in H as (_ & _ & ->).
    unfold IndexTs.createToken, buildPayload, fetchPhase.
    destruct whitelistGitHubIPs.
    + destruct (IndexTs.fetchGitHubIPs w githubIPBatch) as [t ips] eqn:Hf.
      cbn [expires_on condition IndexTs.expires_on IndexTs.condition
           IndexTs.posted snd].
      split; [reflexivity|]. split; [split; intros _; eauto|].
      intros [Hx|[data Hm]]; [discriminate|].
      rewrite (fetchGitHubIPs_now w 0 githubIPBatch 3 data Hm).
      unfold IndexTs.fetchGitHubIPs in Hf. rewrite Hm in Hf.
      injection Hf as <- <-. reflexivity.
    + cbn [expires_on condition IndexTs.expires_on IndexTs.condition
           IndexTs.posted snd].
      split; [reflexivity|]. split; [reflexivity|]. reflexivity.
Qed.

Lemma versions_agree_on_the_condition_witness :
  expires_on (Sample.body (Some (Ranges ["1.2.3.0/24"])) None)
  = IndexTs.expires_on
      (IndexTs.posted (IndexTs.createToken Sample.world (fun _ => PostOk Sample.created)
                                           "Generated Token"
                                           ["zone:Zone Read"] None true "actions")) /\
  (is_Some (condition (Sample.body (Some (Ranges ["1.2.3.0/24"])) None))
   <-> is_Some (IndexTs.condition
                  (IndexTs.posted (IndexTs.createToken Sample.world
                                     (fun _ => PostOk Sample.created)
                                     "Generated Token"
                                     ["zone:Zone Read"] None true "actions")))) /\
  (true = false \/ (exists data, meta Sample.world 0 = MetaData data) ->
   condition (Sample.body (Some (Ranges ["1.2.3.0/24"])) None)
   = IndexTs.condition
       (IndexTs.posted (IndexTs.createToken Sample.world
                          (fun _ => PostOk Sample.created) "Generated Token"
                          ["zone:Zone Read"] None true "actions"))).
Proof.
  apply (versions_agree_on_the_condition Sample.bare Sample.world
           (fun _ => PostOk Sample.created)
           "Generated Token" ["zone:Zone Read"] None true "actions").
  vm_compute. reflexivity.
Defined.
